(** * Fortune-lavaclient: the cluster manager and the filter state

    A shallow embedding of [src/structures/Manager.ts] and
    [src/structures/Filters.ts], with the properties the design document
    states about node selection, player creation, voice state updates,
    failover and the filter payload. *)

From Stdlib Require Import ZArith List String Bool Lia.
From Stdlib Require Import Floats.SpecFloat.
From Stdlib Require Import Sorting.Sorted Sorting.Permutation.
From stdpp Require Import gmap.
Import ListNotations.

Local Open Scope string_scope.
Local Open Scope list_scope.
Local Open Scope Z_scope.

(** ** JavaScript values the two files handle *)

Module JS.

(** A slot that may hold [undefined], [null] or a value. *)
Inductive nullable (A : Type) : Type :=
| Undefined
| Null
| Val (a : A).
Arguments Undefined {A}.
Arguments Null {A}.
Arguments Val {A} a.

(** [!!x] for a slot holding an object: every object is truthy. *)
Definition truthy_obj {A} (x : nullable A) : bool :=
  match x with Val _ => true | _ => false end.

(** [!!x] for a slot holding a string: the empty string is falsy. *)
Definition truthy_str (x : nullable string) : bool :=
  match x with
  | Val s => negb (String.eqb s "")
  | _ => false
  end.

(** [a === b] on [string | null | undefined]. *)
Definition strict_eq_str (a b : nullable string) : bool :=
  match a, b with
  | Undefined, Undefined => true
  | Null, Null => true
  | Val x, Val y => String.eqb x y
  | _, _ => false
  end.

(** A JS number is an IEEE 754 binary64 value. *)
Definition number : Type := spec_float.

Definition num_zero : number := S754_zero false.
Definition num_one : number := S754_finite false 4503599627370496 (-52).
Definition num_half : number := S754_finite false 4503599627370496 (-53).
Definition num_two : number := S754_finite false 4503599627370496 (-51).

(** The values found in the properties of a filter configuration. *)
Inductive value : Type :=
| VUndefined
| VNull
| VNumber (n : number).

(** [a === b]: same type and, for numbers, IEEE equality (NaN differs from
    itself, the two zeros are equal). *)
Definition strict_eq (a b : value) : bool :=
  match a, b with
  | VUndefined, VUndefined => true
  | VNull, VNull => true
  | VNumber x, VNumber y => SFeqb x y
  | _, _ => false
  end.

(** [a !== b]. *)
Definition strict_neq (a b : value) : bool := negb (strict_eq a b).

(** A plain object: its own enumerable properties in insertion order. *)
Definition object (V : Type) : Type := list (string * V).

(** [o.k]: [None] stands for a missing property. *)
Fixpoint get_prop {V} (k : string) (o : object V) : option V :=
  match o with
  | [] => None
  | (k', v) :: rest => if String.eqb k k' then Some v else get_prop k rest
  end.

(** [o.k = v]: overwrite in place, or append a new property. *)
Fixpoint set_prop {V} (k : string) (v : V) (o : object V) : object V :=
  match o with
  | [] => [(k, v)]
  | (k', v') :: rest =>
      if String.eqb k k' then (k, v) :: rest else (k', v') :: set_prop k v rest
  end.

(** [k in o]. *)
Definition has_key {V} (k : string) (o : object V) : bool :=
  match get_prop k o with Some _ => true | None => false end.

(** [Object.values(o)]. *)
Definition values {V} (o : object V) : list V := map snd o.

(** Reading a property of a configuration object: a missing property reads
    as [undefined]. *)
Definition read (k : string) (o : object value) : value :=
  match get_prop k o with Some v => v | None => VUndefined end.

End JS.

Import JS.

(** ** Filters.ts *)

Module Filters.

(** [EqualizerBand] of types/filters.d.ts. *)
Record EqualizerBand : Type := { band : Z; gain : number }.

(** The fields of the [Filters] class, the back reference to the player
    apart (it is passed to [apply]). *)
Record t : Type := {
  volume : number;
  equalizer : list EqualizerBand;
  timescale : nullable (object value);
  karaoke : nullable (object value);
  tremolo : nullable (object value);
  rotation : nullable (object value);
  distortion : nullable (object value)
}.

Definition DEFAULT_VOLUME : number := num_one.

Definition DEFAULT_TIMESCALE : object value :=
  [("rate", VNumber num_one); ("speed", VNumber num_one);
   ("pitch", VNumber num_one)].

Definition DEFAULT_TREMOLO : object value :=
  [("depth", VNumber num_half); ("frequency", VNumber num_two)].

Definition DEFAULT_ROTATION : object value :=
  [("rotationHz", VNumber num_zero)].

Definition DEFAULT_DISTORTION : object value :=
  [("sinOffset", VNumber num_zero); ("sinScale", VNumber num_one);
   ("cosOffset", VNumber num_zero); ("cosScale", VNumber num_one);
   ("tanOffset", VNumber num_zero); ("tanScale", VNumber num_one);
   ("offset", VNumber num_zero); ("scale", VNumber num_one)].

(** The constructor. *)
Definition new : t := {|
  volume := num_one;
  equalizer := [];
  tremolo := Null;
  karaoke := Null;
  timescale := Null;
  rotation := Null;
  distortion := Null
|}.

Definition isEqualizerEnabled (f : t) : bool :=
  existsb (fun b => negb (SFeqb (gain b) num_zero)) (equalizer f).

Definition isTremoloEnabled (f : t) : bool :=
  match tremolo f with
  | Val o => strict_neq (read "depth" o) (VNumber num_zero)
  | _ => false
  end.

Definition isKaraokeEnabled (f : t) : bool := truthy_obj (karaoke f).

Definition isTimescaleEnabled (f : t) : bool :=
  match timescale f with
  | Val o => existsb (fun v => strict_neq v (VNumber num_one)) (values o)
  | _ => false
  end.

Definition isDistortionEnabled (f : t) : bool :=
  match distortion f with
  | Val o => existsb (fun v => strict_neq v VNull) (values o)
  | _ => false
  end.

Definition isRotationEnabled (f : t) : bool :=
  match rotation f with
  | Val o => strict_neq (read "rotationHz" o) (VNumber num_zero)
  | _ => false
  end.

(** What a key of the payload ([FilterMap]) holds. *)
Inductive entry : Type :=
| EVolume (v : number)
| EEqualizer (bands : list EqualizerBand)
| EConfig (cfg : nullable (object value)).

Definition FilterMap : Type := object entry.

(** [if (enabled) payload.k = cfg;] *)
Definition assign_if (enabled : bool) (k : string)
    (cfg : nullable (object value)) (p : FilterMap) : FilterMap :=
  if enabled then set_prop k (EConfig cfg) p else p.

(** The [payload] getter. *)
Definition payload (f : t) : FilterMap :=
  let p0 := [("volume", EVolume (volume f));
             ("equalizer", EEqualizer (equalizer f))] in
  let p1 := assign_if (isTimescaleEnabled f) "timescale" (timescale f) p0 in
  let p2 := assign_if (isKaraokeEnabled f) "karaoke" (karaoke f) p1 in
  let p3 := assign_if (isTremoloEnabled f) "tremolo" (tremolo f) p2 in
  let p4 := assign_if (isRotationEnabled f) "rotation" (rotation f) p3 in
  assign_if (isDistortionEnabled f) "distortion" (distortion f) p4.

(** The enabled predicates in the words of the design document's table.
    A block is non-null when its slot holds an object; a field differs from
    a value when [!==] tells them apart. *)
Module Spec.

Definition differs (v w : value) : Prop := strict_eq v w = false.

Definition some_field_differs (o : object value) (w : value) : Prop :=
  exists k v, In (k, v) o /\ differs v w.

Definition timescale_enabled (f : t) : Prop :=
  exists o, timescale f = Val o /\ some_field_differs o (VNumber num_one).

Definition karaoke_enabled (f : t) : Prop :=
  exists o, karaoke f = Val o.

Definition tremolo_enabled (f : t) : Prop :=
  exists o, tremolo f = Val o /\ differs (read "depth" o) (VNumber num_zero).

Definition rotation_enabled (f : t) : Prop :=
  exists o, rotation f = Val o
            /\ differs (read "rotationHz" o) (VNumber num_zero).

Definition distortion_enabled (f : t) : Prop :=
  exists o, distortion f = Val o /\ some_field_differs o VNull.

End Spec.

End Filters.

(** ** Collections of the language *)

Module Collections.

(** A [Map<string, V>]: its entries in insertion order, one per key. *)
Definition Map (V : Type) : Type := list (string * V).

Definition map_get {V} (k : string) (m : Map V) : option V := get_prop k m.

Definition map_has {V} (k : string) (m : Map V) : bool := has_key k m.

Definition map_set {V} (k : string) (v : V) (m : Map V) : Map V :=
  set_prop k v m.

Fixpoint map_delete {V} (k : string) (m : Map V) : Map V :=
  match m with
  | [] => []
  | (k', v) :: rest =>
      if String.eqb k k' then rest else (k', v) :: map_delete k rest
  end.

Definition map_values {V} (m : Map V) : list V := map snd m.

(** [Array.prototype.sort(cmp)] is a stable sort: of two elements the
    comparator does not order, the one that came first stays first.  For a
    comparator that is a difference of integer keys the stable sorted
    arrangement is unique; it is computed here by insertion. *)
Fixpoint insert_by {A} (cmp : A -> A -> Z) (x : A) (l : list A) : list A :=
  match l with
  | [] => [x]
  | y :: ys => if (cmp x y <=? 0)%Z then x :: y :: ys else y :: insert_by cmp x ys
  end.

Definition sort {A} (cmp : A -> A -> Z) (l : list A) : list A :=
  fold_right (insert_by cmp) [] l.

End Collections.

Import Collections.

(** ** The collaborators of the manager

    [Socket.ts] and [Player.ts] are not among the sources; the manager reads
    the fields and calls the methods modelled below. *)

Module Socket.

(** The fields of a socket that [Manager.ts] reads in the functions
    embedded here. *)
Record t : Type := { id : string; status : Z; penalties : Z }.

(** Modelled from the spec: the [Status] enum of Socket.ts is missing.
    [ideal] keeps the sockets with [status == 0], which the design document
    calls the CONNECTED state; every other state has another code. *)
Definition CONNECTED : Z := 0.

(** [SocketData], an entry of the node configuration. *)
Record SocketData : Type := { data_id : string }.

(** Modelled from the spec: the constructor of Socket.ts is missing.  A
    connection starts out CONNECTING (any code but 0; 1 here) with no
    penalty. *)
Definition new (s : SocketData) : t :=
  {| id := data_id s; status := 1; penalties := 0 |}.

End Socket.

(** The payloads Discord hands to the manager (declared in Manager.ts). *)
Record DiscordVoiceServer : Type := {
  vs_token : string;
  vs_guild_id : string;
  vs_endpoint : string
}.

Record DiscordVoiceState : Type := {
  channel_id : nullable string;
  guild_id : string;
  user_id : string;
  session_id : string
}.

Module Player.

(** The fields of a player that [Manager.ts] reads and writes. *)
Record t : Type := {
  socket : Socket.t;
  guild : string;
  channel : nullable string;
  position : Z;
  track : nullable string;
  _sessionId : nullable string;
  _server : nullable DiscordVoiceServer;
  filters : Filters.t
}.

(** Modelled from the spec: the constructor of Player.ts is missing.  A new
    player is bound to the given connection, has no channel, no track and
    neither handshake half, and carries a fresh filter state. *)
Definition new (s : Socket.t) (g : string) : t := {|
  socket := s;
  guild := g;
  channel := Undefined;
  position := 0;
  track := Undefined;
  _sessionId := Undefined;
  _server := Undefined;
  filters := Filters.new
|}.

Definition set_socket (s : Socket.t) (p : t) : t := {|
  socket := s; guild := guild p; channel := channel p;
  position := position p; track := track p; _sessionId := _sessionId p;
  _server := _server p; filters := filters p
|}.

Definition set_channel (c : nullable string) (p : t) : t := {|
  socket := socket p; guild := guild p; channel := c;
  position := position p; track := track p; _sessionId := _sessionId p;
  _server := _server p; filters := filters p
|}.

Definition set_sessionId (s : nullable string) (p : t) : t := {|
  socket := socket p; guild := guild p; channel := channel p;
  position := position p; track := track p; _sessionId := s;
  _server := _server p; filters := filters p
|}.

Definition set_server (s : nullable DiscordVoiceServer) (p : t) : t := {|
  socket := socket p; guild := guild p; channel := channel p;
  position := position p; track := track p; _sessionId := _sessionId p;
  _server := s; filters := filters p
|}.

End Player.

(** ** Effects *)

(** A player object is known by its address: two players with equal fields
    are still two instances. *)
Definition ref : Type := nat.

(** What an outbound message carries, by opcode. *)
Inductive Data : Type :=
| DVoiceUpdate (sessionId : nullable string)
               (event : nullable DiscordVoiceServer)
| DFilters (payload : Filters.FilterMap)
| DPlay (track : string) (startTime : Z).

(** What the manager does to the outside, in the order it does it. *)
Inductive Event : Type :=
| Emit (p : ref) (name : string) (arg : nullable string)
| Send (p : ref) (to : string) (op : string) (data : Data)
       (prioritize : option bool)
| Teardown (p : ref) (disconnect : bool)
| SetTimeout (p : ref) (delay : Z)
| PluginLoad (plugin : string)
| PluginInit (plugin : string)
| SocketError (socket : string).

Inductive Error : Type :=
| TypeError (message : string)
| PlainError (message : string).

Inductive Outcome (A : Type) : Type :=
| Return (a : A)
| Throw (e : Error).
Arguments Return {A} a.
Arguments Throw {A} e.

(** ** Manager.ts: options and construction *)

Module Options.

(** What the [send] option can hold at run time: the constructor checks
    for a missing value and for a value that is not a function. *)
Inductive SendFn : Type :=
| DefaultSend
| UserSend (name : string).

Inductive SendValue : Type :=
| SendUndefined
| SendNull
| SendFunction (f : SendFn)
| SendOther.

Record ResumeOptions : Type := {
  timeout : option Z;
  key : option string
}.

Inductive ResumingValue : Type :=
| ResumingBool (b : bool)
| ResumingObject (o : ResumeOptions).

Record ReconnectOptions : Type := {
  auto : option bool;
  delay : option Z;
  maxTries : option Z
}.

(** [ManagerOptions] as an object: [None] is a property that is not
    there. *)
Record t : Type := {
  send : option SendValue;
  auto_fallback_socket : option bool;
  shards : option (nullable Z);
  userId : option string;
  plugins : option (list string);
  resuming : option ResumingValue;
  reconnect : option ReconnectOptions
}.

(** The module constant [defaults] as the module is loaded; the resume key
    is [Math.random().toString(32)]. *)
Definition defaults (random_key : string) : t := {|
  resuming :=
    Some (ResumingObject {| key := Some random_key; timeout := Some 60000 |});
  send := Some (SendFunction DefaultSend);
  auto_fallback_socket := Some true;
  reconnect :=
    Some {| auto := Some true; delay := Some 15000; maxTries := Some 5 |};
  shards := Some (Val 1);
  userId := None;
  plugins := None
|}.

Definition or_else {A} (source target : option A) : option A :=
  match source with
  | Some v => Some v
  | None => target
  end.

(** [Object.assign(target, source)]: every property of [source] is written
    over [target], which is also the result. *)
Definition assign (target source : t) : t := {|
  send := or_else (send source) (send target);
  auto_fallback_socket :=
    or_else (auto_fallback_socket source) (auto_fallback_socket target);
  shards := or_else (shards source) (shards target);
  userId := or_else (userId source) (userId target);
  plugins := or_else (plugins source) (plugins target);
  resuming := or_else (resuming source) (resuming target);
  reconnect := or_else (reconnect source) (reconnect target)
|}.

(** [!options.send || typeof options.send !== "function"] *)
Definition send_rejected (o : t) : bool :=
  match send o with
  | Some (SendFunction _) => false
  | _ => true
  end.

(** [options.shards < 1]: [null] converts to 0, [undefined] to NaN. *)
Definition shards_rejected (o : t) : bool :=
  match shards o with
  | Some (Val n) => (n <? 1)%Z
  | Some Null => true
  | Some Undefined => false
  | None => false
  end.

(** Calling a send function; the one of [defaults] throws. *)
Definition call_send (f : SendFn) : Outcome unit :=
  match f with
  | DefaultSend => Throw (PlainError "Please Provide Send Function")
  | UserSend _ => Return tt
  end.

End Options.

Module Manager.

(** The fields of the [Manager] class. *)
Record t : Type := {
  sockets : Map Socket.t;
  players : Map ref;
  options : Options.t;
  userId : option string;
  send : option Options.SendValue;
  resuming : nullable Options.ResumingValue;
  plugins : list string;
  nodes : list Socket.SocketData;
  (** whether [fallback] listens to "socketClose" *)
  fallback_listener : bool
}.

Definition set_sockets (s : Map Socket.t) (m : t) : t := {|
  sockets := s; players := players m; options := options m;
  userId := userId m; send := send m; resuming := resuming m;
  plugins := plugins m; nodes := nodes m;
  fallback_listener := fallback_listener m
|}.

Definition set_players (p : Map ref) (m : t) : t := {|
  sockets := sockets m; players := p; options := options m;
  userId := userId m; send := send m; resuming := resuming m;
  plugins := plugins m; nodes := nodes m;
  fallback_listener := fallback_listener m
|}.

Definition set_userId (u : option string) (m : t) : t := {|
  sockets := sockets m; players := players m; options := options m;
  userId := u; send := send m; resuming := resuming m;
  plugins := plugins m; nodes := nodes m;
  fallback_listener := fallback_listener m
|}.


(** What the constructor leaves behind: the module constant [defaults],
    which [Object.assign] has written to, the plugins it loaded, and the
    manager or the error thrown. *)
Record Constructed : Type := {
  defaults_after : Options.t;
  loaded : list Event;
  result : Outcome t
}.

Definition constructor (defaults : Options.t)
    (nodes : list Socket.SocketData) (options : Options.t) : Constructed :=
  let options := Options.assign defaults options in
  let resuming :=
    match Options.resuming options with
    | Some (Options.ResumingBool false) => Null
    | Some (Options.ResumingBool true) => Val (Options.ResumingBool true)
    | Some (Options.ResumingObject o) => Val (Options.ResumingObject o)
    | None => Undefined
    end in
  if Options.send_rejected options then
    {| defaults_after := options; loaded := [];
       result := Throw (TypeError
         "Please provide a send function for sending packets to discord.") |}
  else if Options.shards_rejected options then
    {| defaults_after := options; loaded := [];
       result := Throw (TypeError "Shard count must be 1 or greater.") |}
  else
    let plugins :=
      match Options.plugins options with
      | Some l => l
      | None => []
      end in
    {| defaults_after := options;
       loaded := map PluginLoad plugins;
       result := Return {|
         sockets := [];
         players := [];
         options := options;
         userId := Options.userId options;
         send := Options.send options;
         resuming := resuming;
         plugins := plugins;
         nodes := nodes;
         fallback_listener :=
           match Options.auto_fallback_socket options with
           | Some b => b
           | None => false
           end
       |} |}.

(** [(a, b) => a.penalties - b.penalties] *)
Definition by_penalties (a b : Socket.t) : Z :=
  Socket.penalties a - Socket.penalties b.

(** The [ideal] getter. *)
Definition ideal (m : t) : list Socket.t :=
  sort by_penalties
    (List.filter (fun s => (Socket.status s =? 0)%Z) (map_values (sockets m))).

(** [this.ideal[0]], which is [undefined] on an empty array. *)
Definition ideal0 (m : t) : option Socket.t := hd_error (ideal m).

(** *** The objects the manager works on

    The players live in a heap, the registry [players] holds their
    addresses.  [now] is the clock [new Date().getTime()] reads and [trace]
    the effects so far, oldest first. *)
Record World : Type := {
  manager : t;
  heap : gmap ref Player.t;
  next : ref;
  now : Z;
  trace : list Event
}.

Definition with_manager (f : t -> t) (w : World) : World := {|
  manager := f (manager w); heap := heap w; next := next w;
  now := now w; trace := trace w
|}.

Definition with_heap (f : gmap ref Player.t -> gmap ref Player.t)
    (w : World) : World := {|
  manager := manager w; heap := f (heap w); next := next w;
  now := now w; trace := trace w
|}.

Definition log (e : Event) (w : World) : World := {|
  manager := manager w; heap := heap w; next := next w;
  now := now w; trace := (trace w ++ [e])%list
|}.

(** A write to a field of the player at [r]. *)
Definition write (r : ref) (f : Player.t -> Player.t) (w : World) : World :=
  with_heap (alter f r) w.

(** [new Player(socket, id)]: a fresh address. *)
Definition alloc (p : Player.t) (w : World) : ref * World :=
  (next w,
   {| manager := manager w; heap := <[next w := p]> (heap w);
      next := S (next w); now := now w; trace := trace w |}).

(** *** Methods of the player the manager calls

    On an address that holds no player (none is ever produced: [create]
    is the one place that allocates) the methods do nothing. *)

(** Modelled from the spec: [Player.send] of Player.ts is missing.  The
    message goes to the connection that owns the player; the third
    argument is the prioritized flag, [None] when the caller leaves it
    out. *)
Definition Player_send (r : ref) (op : string) (data : Data)
    (prioritize : option bool) (w : World) : World :=
  match heap w !! r with
  | Some p => log (Send r (Socket.id (Player.socket p)) op data prioritize) w
  | None => w
  end.

(** Modelled from the spec: [Player.move] of Player.ts is missing.  The
    player is unbound from its connection and bound to the new one. *)
Definition Player_move (r : ref) (s : Socket.t) (w : World) : World :=
  write r (Player.set_socket s) w.

(** Modelled from the spec: [Player.play] of Player.ts is missing.  A play
    command for the track goes out with the given start time. *)
Definition Player_play (r : ref) (track : string) (startTime : Z)
    (w : World) : World :=
  Player_send r "play" (DPlay track startTime) None w.

(** Modelled from the spec: [Player.destroy] of Player.ts is missing.  It
    tears the voice attachment down. *)
Definition Player_destroy (r : ref) (disconnect : bool) (w : World) : World :=
  log (Teardown r disconnect) w.

Inductive VoiceUpdate : Type :=
| ServerUpdate (u : DiscordVoiceServer)
| StateUpdate (u : DiscordVoiceState).

(** Modelled from the spec: [Player.handleVoiceUpdate] of Player.ts is
    missing.  The half that arrived is stored; the combined voice update
    goes out once both halves are there. *)
Definition Player_handleVoiceUpdate (r : ref) (u : VoiceUpdate)
    (w : World) : World :=
  let w1 :=
    match u with
    | ServerUpdate s => write r (Player.set_server (Val s)) w
    | StateUpdate s => write r (Player.set_sessionId (Val (session_id s))) w
    end in
  match heap w1 !! r with
  | Some p =>
      match Player._sessionId p, Player._server p with
      | Val sid, Val srv =>
          Player_send r "voiceUpdate" (DVoiceUpdate (Val sid) (Val srv)) None w1
      | _, _ => w1
      end
  | None => w1
  end.

(** [Filters.apply(prioritize = false)] of Filters.ts, on the filters of
    the player at [r]. *)
Definition Filters_apply (r : ref) (prioritize : option bool)
    (w : World) : World :=
  let prioritize :=
    match prioritize with
    | Some b => b
    | None => false
    end in
  match heap w !! r with
  | Some p =>
      Player_send r "filters"
        (DFilters (Filters.payload (Player.filters p))) (Some prioritize) w
  | None => w
  end.

(** *** create, destroy and the voice updates *)

(** [string | Dictionary] *)
Inductive Guild : Type :=
| GuildId (id : string)
| GuildObject (id : string).

(** [typeof guild === "string" ? guild : guild.id] *)
Definition guild_key (g : Guild) : string :=
  match g with
  | GuildId id => id
  | GuildObject id => id
  end.

(** [create(guild, socket = this.ideal[0])] *)
Definition create (guild : Guild) (socket : option Socket.t)
    (w : World) : Outcome ref * World :=
  let socket :=
    match socket with
    | Some s => Some s
    | None => ideal0 (manager w)
    end in
  let id := guild_key guild in
  match map_get id (players (manager w)) with
  | Some existing => (Return existing, w)
  | None =>
      match socket with
      | None => (Throw (PlainError "Manager#create(): No available nodes."), w)
      | Some s =>
          let '(player, w1) := alloc (Player.new s id) w in
          (Return player,
           with_manager (fun m => set_players (map_set id player (players m)) m)
             w1)
      end
  end.

(** [destroy(guild)] *)
Definition destroy (guild : Guild) (w : World) : bool * World :=
  let id := guild_key guild in
  match map_get id (players (manager w)) with
  | Some player =>
      let w1 := Player_destroy player true w in
      (map_has id (players (manager w1)),
       with_manager (fun m => set_players (map_delete id (players m)) m) w1)
  | None => (false, w)
  end.

(** [serverUpdate(update)] *)
Definition serverUpdate (update : DiscordVoiceServer) (w : World) : World :=
  match map_get (vs_guild_id update) (players (manager w)) with
  | Some player => Player_handleVoiceUpdate player (ServerUpdate update) w
  | None => w
  end.

(** [update.user_id === this.userId] *)
Definition own_user (update : DiscordVoiceState) (m : t) : bool :=
  match userId m with
  | Some u => String.eqb (user_id update) u
  | None => false
  end.

(** [stateUpdate(update)] *)
Definition stateUpdate (update : DiscordVoiceState) (w : World) : World :=
  match map_get (guild_id update) (players (manager w)) with
  | Some player =>
      if own_user update (manager w) then
        match heap w !! player with
        | Some p =>
            let w1 :=
              if negb (strict_eq_str (channel_id update) (Player.channel p))
              then
                write player (Player.set_channel (channel_id update))
                  (log (Emit player "move" (channel_id update)) w)
              else w in
            Player_handleVoiceUpdate player (StateUpdate update) w1
        | None => w
        end
      else w
  | None => w
  end.

(** *** init *)

(** The loop of [init] over the configured nodes.  [connect_throws] tells
    for which node ids [socket.connect()] throws (Socket.ts is missing);
    such a socket is reported and not registered. *)
Fixpoint connect_all (connect_throws : string -> bool)
    (nodes : list Socket.SocketData) (w : World) : World :=
  match nodes with
  | [] => w
  | s :: rest =>
      let id := Socket.data_id s in
      if map_has id (sockets (manager w)) then connect_all connect_throws rest w
      else
        let socket := Socket.new s in
        if connect_throws id then
          connect_all connect_throws rest (log (SocketError id) w)
        else
          connect_all connect_throws rest
            (with_manager
               (fun m => set_sockets (map_set id socket (sockets m)) m) w)
  end.

(** [init(userId = this.userId)] *)
Definition init (connect_throws : string -> bool) (user : option string)
    (w : World) : Outcome unit * World :=
  let user :=
    match user with
    | Some u => Some u
    | None => userId (manager w)
    end in
  match user with
  | Some u =>
      if String.eqb u "" then
        (Throw (PlainError "Provide a client id for lavalink to use."), w)
      else
        let w1 := with_manager (set_userId (Some u)) w in
        let w2 :=
          fold_left (fun w p => log (PluginInit p) w) (plugins (manager w1)) w1 in
        (Return tt, connect_all connect_throws (nodes (manager w2)) w2)
  | None => (Throw (PlainError "Provide a client id for lavalink to use."), w)
  end.

(** *** fallback

    [fallback] hands an async callback to [players.forEach]; the callback
    runs up to its first [await] or [setTimeout] while the sweep is under
    way, and [find_socket] runs again each time its timer fires.  An awaited
    call is taken to run to its end before the statement after it, so the
    effects of one run of [find_socket] are recorded together and in program
    order; the events of different players carry the address of their
    player. *)

(** What the closure [find_socket] has captured: the player [p], its
    [position] and the time [startfind]. *)
Record Task : Type := {
  task_player : ref;
  task_position : Z;
  task_startfind : Z
}.

(** One run of the body of [find_socket].  The task comes back when the
    run has armed the timer again. *)
Definition find_socket (t : Task) (w : World) : World * option Task :=
  let p := task_player t in
  match ideal0 (manager w) with
  | None => (log (SetTimeout p 1000) w, Some t)
  | Some s =>
      let found_time := now w in
      let offset := (found_time - task_startfind t) + 1000 in
      let w1 := Player_move p s w in
      let w2 :=
        match heap w1 !! p with
        | Some pl =>
            Player_send p "voiceUpdate"
              (DVoiceUpdate (Player._sessionId pl) (Player._server pl)) None w1
        | None => w1
        end in
      let w3 := Filters_apply p None w2 in
      let w4 :=
        match heap w3 !! p with
        | Some pl =>
            match Player.track pl with
            | Val tr =>
                if truthy_str (Val tr)
                then Player_play p tr (task_position t + offset) w3
                else w3
            | _ => w3
            end
        | None => w3
        end in
      (w4, None)
  end.

Definition option_cons {A} (o : option A) (l : list A) : list A :=
  match o with
  | Some a => a :: l
  | None => l
  end.

(** The callback [fallback] hands to [players.forEach], up to the point
    where it either returns or waits for the timer. *)
Definition visit (socket : Socket.t) (r : ref) (w : World)
    : World * option Task :=
  match heap w !! r with
  | Some p =>
      if String.eqb (Socket.id (Player.socket p)) (Socket.id socket) then
        if negb (truthy_str (Player.channel p)) then
          (with_manager
             (fun m => set_players (map_delete (Player.guild p) (players m)) m)
             w,
           None)
        else
          let position := Z.max (Player.position p) 0 in
          let startfind := now w in
          find_socket
            {| task_player := r; task_position := position;
               task_startfind := startfind |} w
      else (w, None)
  | None => (w, None)
  end.

(** [Map.prototype.forEach]: the entries in insertion order; an entry that
    was deleted before its turn is not visited. *)
Fixpoint forEach (socket : Socket.t) (entries : list (string * ref))
    (w : World) : World * list Task :=
  match entries with
  | [] => (w, [])
  | (k, r) :: rest =>
      if map_has k (players (manager w)) then
        let '(w1, t) := visit socket r w in
        let '(w2, ts) := forEach socket rest w1 in
        (w2, option_cons t ts)
      else forEach socket rest w
  end.

(** [fallback(socket)]: the sweep over the players, each run of
    [find_socket] it starts taken to its end, the sends after its awaits
    included (in the code those go out after the call has returned), and
    the timers that are armed. *)
Definition fallback (socket : Socket.t) (w : World) : World * list Task :=
  forEach socket (players (manager w)) w.

(** The timers fire in the order they were armed. *)
Fixpoint fire (tasks : list Task) (w : World) : World * list Task :=
  match tasks with
  | [] => (w, [])
  | t :: rest =>
      let '(w1, o) := find_socket t w in
      let '(w2, pending) := fire rest w1 in
      (w2, option_cons o pending)
  end.

(** What the rest of the system has done by the time the timers fire: the
    clock has moved and the sockets have changed state.  The players are
    taken to be left alone in the meantime. *)
Record Tick : Type := {
  tick_now : Z;
  tick_sockets : Map Socket.t
}.

Definition advance (k : Tick) (w : World) : World := {|
  manager := set_sockets (tick_sockets k) (manager w);
  heap := heap w; next := next w;
  now := tick_now k; trace := trace w
|}.

(** The timers over a schedule of ticks; the tasks still waiting at its end
    come back. *)
Fixpoint run (schedule : list Tick) (tasks : list Task) (w : World)
    : World * list Task :=
  match tasks, schedule with
  | [], _ => (w, [])
  | _, [] => (w, tasks)
  | _, k :: rest =>
      let '(w1, pending) := fire tasks (advance k w) in
      run rest pending w1
  end.

(** A connection is lost and the schedule unfolds. *)
Definition failover (socket : Socket.t) (schedule : list Tick) (w : World)
    : World * list Task :=
  let '(w1, tasks) := fallback socket w in
  run schedule tasks w1.

End Manager.

(** ** Vocabulary of the properties *)

Module Props.

Import Manager.

(** The player an event is about, if any. *)
Definition event_player (e : Event) : option ref :=
  match e with
  | Emit p _ _ => Some p
  | Send p _ _ _ _ => Some p
  | Teardown p _ => Some p
  | SetTimeout p _ => Some p
  | PluginLoad _ => None
  | PluginInit _ => None
  | SocketError _ => None
  end.

Definition about (r : ref) (e : Event) : bool :=
  match event_player e with
  | Some p => Nat.eqb p r
  | None => false
  end.

(** What the world has done to, or on behalf of, the player at [r]. *)
Definition history (r : ref) (w : World) : list Event :=
  List.filter (about r) (trace w).

(** The registry is in order: one entry per guild, and the entry of a
    guild holds the address of a player of that guild. *)
Definition registered (w : World) : Prop :=
  List.NoDup (map fst (players (manager w)))
  /\ forall k r, In (k, r) (players (manager w)) ->
       exists p, heap w !! r = Some p /\ Player.guild p = k.

(** [s] is the connected socket of least penalty in [l], and the first of
    them in the order of [l] where several have that penalty. *)
Definition selected (l : list Socket.t) (s : Socket.t) : Prop :=
  exists before after,
    l = (before ++ s :: after)%list
    /\ Socket.status s = Socket.CONNECTED
    /\ (forall x, In x before -> Socket.status x = Socket.CONNECTED ->
          Socket.penalties s < Socket.penalties x)
    /\ (forall x, In x after -> Socket.status x = Socket.CONNECTED ->
          Socket.penalties s <= Socket.penalties x).

(** [ideal0] as a function of the sockets in the registry. *)
Definition pick (l : list Socket.t) : option Socket.t :=
  hd_error (sort by_penalties
              (List.filter (fun s => Socket.status s =? 0) l)).

(** When and where the polling of a failover finds a connection: the
    number of timers armed before, the clock at that moment and the
    connection. *)
Fixpoint found_in (m : Manager.t) (schedule : list Tick) (armed : nat)
    : option (nat * Z * Socket.t) :=
  match schedule with
  | [] => None
  | k :: rest =>
      match ideal0 (set_sockets (tick_sockets k) m) with
      | Some s => Some (armed, tick_now k, s)
      | None => found_in m rest (S armed)
      end
  end.

Definition found (w : World) (schedule : list Tick)
    : option (nat * Z * Socket.t) :=
  match ideal0 (manager w) with
  | Some s => Some (O, now w, s)
  | None => found_in (manager w) schedule 1%nat
  end.

(** Two worlds whose players, address by address, are of the same
    guilds. *)
Definition same_guilds (w w' : World) : Prop :=
  forall r, (Player.guild <$> heap w' !! r) = (Player.guild <$> heap w !! r).

(** The tasks in [tasks] are for players other than the one at [r]. *)
Definition others (r : ref) (tasks : list Task) : Prop :=
  Forall (fun t => task_player t <> r) tasks.

(** The task a failover arms for the player [p] at [r] in the world [w]. *)
Definition task_of (r : ref) (p : Player.t) (w : World) : Task :=
  {| task_player := r;
     task_position := Z.max (Player.position p) 0;
     task_startfind := now w |}.

(** Every address in use is below [next]. *)
Definition fresh_next (w : World) : Prop :=
  forall r, (next w <= r)%nat -> heap w !! r = None.

(** The invariant of the worlds the manager produces. *)
Definition well_formed (w : World) : Prop := registered w /\ fresh_next w.

(** The world around a manager that has just been constructed. *)
Definition world_at (m : Manager.t) (clock : Z) : World :=
  {| manager := m; heap := ∅; next := O; now := clock; trace := [] |}.

(** The messages a relocation to [s] sends for the player [p] at [r] when
    it resumes at [startTime]. *)
Definition relocation (r : ref) (p : Player.t) (s : Socket.t)
    (startTime : Z) : list Event :=
  ([Send r (Socket.id s) "voiceUpdate"
      (DVoiceUpdate (Player._sessionId p) (Player._server p)) None;
    Send r (Socket.id s) "filters"
      (DFilters (Filters.payload (Player.filters p))) (Some false)]
   ++ match Player.track p with
      | Val tr =>
          if truthy_str (Val tr)
          then [Send r (Socket.id s) "play" (DPlay tr startTime) None]
          else []
      | _ => []
      end)%list.

End Props.

(** ** Sample data *)

Module Samples.

Import Manager.

Definition socket_A : Socket.t :=
  {| Socket.id := "A"; Socket.status := Socket.CONNECTED;
     Socket.penalties := 3 |}.
Definition socket_B : Socket.t :=
  {| Socket.id := "B"; Socket.status := Socket.CONNECTED;
     Socket.penalties := 1 |}.
Definition socket_C (reconnecting : Z) : Socket.t :=
  {| Socket.id := "C"; Socket.status := reconnecting;
     Socket.penalties := 0 |}.

(** The connections of the node selection example. *)
Definition three_sockets (reconnecting : Z) : Map Socket.t :=
  [("A", socket_A); ("B", socket_B); ("C", socket_C reconnecting)].

(** An options object with nothing in it, and one with a send function. *)
Definition no_options : Options.t := {|
  Options.send := None; Options.auto_fallback_socket := None;
  Options.shards := None; Options.userId := None;
  Options.plugins := None; Options.resuming := None;
  Options.reconnect := None
|}.

Definition with_send : Options.t := {|
  Options.send := Some (Options.SendFunction (Options.UserSend "send"));
  Options.auto_fallback_socket := None;
  Options.shards := None; Options.userId := Some "bot";
  Options.plugins := None; Options.resuming := None;
  Options.reconnect := None
|}.

Definition with_shards (n : Z) : Options.t := {|
  Options.send := Some (Options.SendFunction (Options.UserSend "send"));
  Options.auto_fallback_socket := None;
  Options.shards := Some (Val n); Options.userId := Some "bot";
  Options.plugins := None; Options.resuming := None;
  Options.reconnect := None
|}.

Definition a_manager : Manager.t := {|
  sockets := []; players := []; options := Options.defaults "key";
  userId := Some "bot";
  send := Some (Options.SendFunction (Options.UserSend "send"));
  resuming := Undefined; plugins := []; nodes := [];
  fallback_listener := true
|}.

(** The connection that is lost and the one that takes over. *)
Definition socket_X : Socket.t :=
  {| Socket.id := "X"; Socket.status := 3; Socket.penalties := 0 |}.
Definition socket_Y : Socket.t :=
  {| Socket.id := "Y"; Socket.status := Socket.CONNECTED;
     Socket.penalties := 0 |}.

(** The player of the failover scenario: on X, in channel c1, playing T at
    42000 ms, both handshake halves received. *)
Definition player_P : Player.t := {|
  Player.socket := socket_X; Player.guild := "g1";
  Player.channel := Val "c1"; Player.position := 42000;
  Player.track := Val "T"; Player._sessionId := Val "s1";
  Player._server :=
    Val {| vs_token := "t"; vs_guild_id := "g1"; vs_endpoint := "e" |};
  Player.filters := Filters.new
|}.

(** A player that has joined no channel. *)
Definition player_stale : Player.t :=
  Player.set_channel Null player_P.

(** A player in a channel that has received neither handshake half. *)
Definition player_detached : Player.t :=
  Player.set_server Undefined (Player.set_sessionId Undefined player_P).

(** A world whose one player is [p], X being down and Y not yet up. *)
Definition world_of (p : Player.t) (clock : Z) : World := {|
  manager :=
    set_players [("g1", O)]
      (set_sockets
         [("X", socket_X);
          ("Y", {| Socket.id := "Y"; Socket.status := 1;
                   Socket.penalties := 0 |})]
         a_manager);
  heap := {[ O := p ]};
  next := 1%nat;
  now := clock;
  trace := []
|}.

(** Y comes up at time [t]. *)
Definition Y_up (t : Z) : Tick :=
  {| tick_now := t; tick_sockets := [("X", socket_X); ("Y", socket_Y)] |}.

(** Nothing has changed at time [t]. *)
Definition still_down (t : Z) : Tick :=
  {| tick_now := t;
     tick_sockets :=
       [("X", socket_X);
        ("Y", {| Socket.id := "Y"; Socket.status := 1;
                 Socket.penalties := 0 |})] |}.

Definition tremolo_on : Filters.t := {|
  Filters.volume := num_one; Filters.equalizer := [];
  Filters.timescale := Val Filters.DEFAULT_TIMESCALE;
  Filters.karaoke := Null;
  Filters.tremolo := Val Filters.DEFAULT_TREMOLO;
  Filters.rotation := Val Filters.DEFAULT_ROTATION;
  Filters.distortion := Val Filters.DEFAULT_DISTORTION
|}.

End Samples.

(** ** Manager.ts: plugins and search *)

Module Plugins.

Import Manager.

(** [use(plugin)]: the plugin is loaded at once and joins the array of
    plugins; the manager itself is the result. *)
Definition use (plugin : string) (w : World) : World :=
  let w1 := log (PluginLoad plugin) w in
  with_manager
    (fun m =>
       {| sockets := sockets m; players := players m; options := options m;
          userId := userId m; send := send m; resuming := resuming m;
          plugins := plugins m ++ [plugin]; nodes := nodes m;
          fallback_listener := fallback_listener m |})
    w1.

End Plugins.

Module Search.

Import Manager.




End Search.

(** ** More vocabulary and sample data *)

Module MoreProps.

Import Manager Props.

(** [s.status == 0] *)
Definition connected (s : Socket.t) : bool := (Socket.status s =? 0)%Z.

(** The order [ideal] sorts by. *)
Definition penalty_le (a b : Socket.t) : Prop :=
  Socket.penalties a <= Socket.penalties b.

(** The user id [init] works with: its argument, or else the one the
    manager has. *)
Definition effective_user (user : option string) (w : World) : option string :=
  match user with
  | Some u => Some u
  | None => userId (manager w)
  end.

(** The node ids whose [connect()] throws during an [init] of [w]: those
    that are not registered yet. *)
Definition failing (connect_throws : string -> bool) (w : World)
    : list string :=
  List.filter
    (fun id => connect_throws id && negb (map_has id (sockets (manager w))))
    (map Socket.data_id (nodes (manager w))).

(** The messages of an event list, with the connection each goes to. *)
Definition sent_to (to : string) (e : Event) : Prop :=
  match e with
  | Send _ to' _ _ _ => to' = to
  | _ => True
  end.

(** No tick of [ticks] shows a connected socket. *)
Definition all_down (ticks : list Tick) : Prop :=
  Forall (fun k => pick (map_values (tick_sockets k)) = None) ticks.


(** An event that arms no timer. *)
Definition no_timer (e : Event) : Prop :=
  match e with
  | SetTimeout _ _ => False
  | _ => True
  end.

End MoreProps.

Module MoreSamples.

Import Manager Samples.

Definition node (id : string) : Socket.SocketData :=
  {| Socket.data_id := id |}.

(** A manager configured with the nodes n1, n2, n1 again, and n3. *)
Definition fresh_world : World := {|
  manager :=
    {| sockets := []; players := []; options := Options.defaults "key";
       userId := None;
       send := Some (Options.SendFunction (Options.UserSend "send"));
       resuming := Undefined; plugins := ["p1"];
       nodes := [node "n1"; node "n2"; node "n1"; node "n3"];
       fallback_listener := true |};
  heap := ∅; next := O; now := 0; trace := []
|}.

(** [connect()] throws for n2. *)
Definition n2_throws (id : string) : bool := String.eqb id "n2".

(** A player on Y, whose connection is not the one that is lost. *)
Definition player_on_Y : Player.t := Player.set_socket socket_Y player_P.

(** A player in a channel that plays nothing. *)
Definition player_idle : Player.t := {|
  Player.socket := socket_X; Player.guild := "g1";
  Player.channel := Val "c1"; Player.position := 0;
  Player.track := Null; Player._sessionId := Val "s1";
  Player._server := Undefined;
  Player.filters := Filters.new
|}.

(** The world of [world_of] with Y up from the start. *)
Definition world_with_Y (p : Player.t) (clock : Z) : World :=
  advance (Y_up clock) (world_of p clock).


(** The manager a freshly loaded module constructs from [with_send]. *)
Definition built : Manager.t :=
  Eval cbv in
    match result (constructor (Options.defaults "key") [] with_send) with
    | Return m => m
    | Throw _ => a_manager
    end.

(** A tremolo without a depth, and a timescale without a field. *)
Definition odd_filters : Filters.t := {|
  Filters.volume := num_one; Filters.equalizer := [];
  Filters.timescale := Val [];
  Filters.karaoke := Null;
  Filters.tremolo := Val [("frequency", VNumber num_two)];
  Filters.rotation := Val [];
  Filters.distortion := Val []
|}.

(** A player whose channel is the empty string. *)
Definition player_blank : Player.t := Player.set_channel (Val "") player_P.

(** A manager configured with the nodes n1, n2, n3, before its first
    [init]. *)
Definition retry_world : World := {|
  manager :=
    {| sockets := []; players := []; options := Options.defaults "key";
       userId := Some "bot";
       send := Some (Options.SendFunction (Options.UserSend "send"));
       resuming := Undefined; plugins := [];
       nodes := [node "n1"; node "n2"; node "n3"];
       fallback_listener := true |};
  heap := ∅; next := O; now := 0; trace := []
|}.

(** [connect()] throws for no node. *)
Definition none_throws (id : string) : bool := false.

(** The sockets of a registry report their state; each entry stays in its
    place. *)
Definition report (state : string -> Z * Z) (m : Map Socket.t)
    : Map Socket.t :=
  map (fun e : string * Socket.t =>
         (fst e,
          {| Socket.id := Socket.id (snd e);
             Socket.status := fst (state (fst e));
             Socket.penalties := snd (state (fst e)) |}))
      m.

(** All three nodes are connected; n1 has penalty 1, n2 and n3 have 0. *)
Definition all_connected (id : string) : Z * Z :=
  (Socket.CONNECTED, if String.eqb id "n1" then 1 else 0).

(** The manager after an [init] in which n2 fails to connect, a second
    [init] in which it connects, and the reports of the three sockets. *)
Definition retried : Manager.t :=
  let w1 := snd (init n2_throws None retry_world) in
  let w2 := snd (init none_throws None w1) in
  set_sockets (report all_connected (sockets (manager w2))) (manager w2).

(** A manager that has n1 registered and connected, with the nodes n1 and
    n2 configured. *)
Definition n1_ready : Socket.t :=
  {| Socket.id := "n1"; Socket.status := Socket.CONNECTED;
     Socket.penalties := 7 |}.

Definition rerun_world : World := {|
  manager :=
    {| sockets := [("n1", n1_ready)]; players := [];
       options := Options.defaults "key";
       userId := Some "bot";
       send := Some (Options.SendFunction (Options.UserSend "send"));
       resuming := Undefined; plugins := [];
       nodes := [node "n1"; node "n2"];
       fallback_listener := true |};
  heap := ∅; next := O; now := 0; trace := []
|}.

End MoreSamples.

(** * Properties *)

(** ** The model on sample data *)

Section Examples.

Import Manager Samples.

Example numbers_are_binary64 :
  forallb (valid_binary 53 1024) [num_zero; num_half; num_one; num_two] = true.
Proof. reflexivity. Qed.

Example payload_of_new :
  Filters.payload Filters.new
  = [("volume", Filters.EVolume num_one); ("equalizer", Filters.EEqualizer [])].
Proof. reflexivity. Qed.

(** The default timescale and the default rotation are neutral; the default
    tremolo and the default distortion are not. *)
Example payload_of_defaults :
  map fst (Filters.payload tremolo_on)
  = ["volume"; "equalizer"; "tremolo"; "distortion"].
Proof. reflexivity. Qed.

Example constructor_with_send :
  exists m,
    result (constructor (Options.defaults "key") [] with_send) = Return m
    /\ send m = Some (Options.SendFunction (Options.UserSend "send"))
    /\ userId m = Some "bot".
Proof. eexists. repeat split. Qed.

(** [Object.assign] writes to the module constant: a shard count of 0 given
    once stays in the defaults and fails the next construction as well. *)
Example constructor_writes_defaults :
  let first := constructor (Options.defaults "key") [] (with_shards 0) in
  result (constructor (defaults_after first) [] with_send)
  = Throw (TypeError "Shard count must be 1 or greater.").
Proof. reflexivity. Qed.

Example destroy_tears_down :
  destroy (GuildId "g1") (world_of player_P 0)
  = (true,
     {| manager := set_players [] (manager (world_of player_P 0));
        heap := {[ O := player_P ]}; next := 1%nat; now := 0;
        trace := [Teardown O true] |}).
Proof. reflexivity. Qed.

End Examples.

(** ** The filter payload *)

Section FilterPayload.

Import Filters.

Lemma some_field_differs_existsb (o : object value) (w : value) :
  existsb (fun v => strict_neq v w) (values o) = true
  <-> Spec.some_field_differs o w.
Proof.
  unfold Spec.some_field_differs, Spec.differs, values, strict_neq.
  rewrite existsb_exists. split.
  - intros (v & Hin & Hv). apply in_map_iff in Hin as ((k & v') & Heq & Hin).
    simpl in Heq. subst v'. exists k, v. split; [exact Hin|].
    now apply negb_true_iff.
  - intros (k & v & Hin & Hv). exists v. split.
    + apply in_map_iff. now exists (k, v).
    + now apply negb_true_iff.
Qed.

Lemma isTimescaleEnabled_spec (f : t) :
  isTimescaleEnabled f = true <-> Spec.timescale_enabled f.
Proof.
  unfold isTimescaleEnabled, Spec.timescale_enabled.
  destruct (timescale f) as [| |o].
  - split; [discriminate|]. now intros (o & Heq & _).
  - split; [discriminate|]. now intros (o & Heq & _).
  - rewrite some_field_differs_existsb. split.
    + intros H. now exists o.
    + intros (o' & Heq & H). now injection Heq as ->.
Qed.

Lemma isDistortionEnabled_spec (f : t) :
  isDistortionEnabled f = true <-> Spec.distortion_enabled f.
Proof.
  unfold isDistortionEnabled, Spec.distortion_enabled.
  destruct (distortion f) as [| |o].
  - split; [discriminate|]. now intros (o & Heq & _).
  - split; [discriminate|]. now intros (o & Heq & _).
  - rewrite some_field_differs_existsb. split.
    + intros H. now exists o.
    + intros (o' & Heq & H). now injection Heq as ->.
Qed.

Lemma isKaraokeEnabled_spec (f : t) :
  isKaraokeEnabled f = true <-> Spec.karaoke_enabled f.
Proof.
  unfold isKaraokeEnabled, Spec.karaoke_enabled, truthy_obj.
  destruct (karaoke f) as [| |o]; split; try discriminate;
    try (now intros (o' & Heq)).
  intros _. now exists o.
Qed.

Lemma isTremoloEnabled_spec (f : t) :
  isTremoloEnabled f = true <-> Spec.tremolo_enabled f.
Proof.
  unfold isTremoloEnabled, Spec.tremolo_enabled, Spec.differs, strict_neq.
  destruct (tremolo f) as [| |o].
  - split; [discriminate|]. now intros (o & Heq & _).
  - split; [discriminate|]. now intros (o & Heq & _).
  - rewrite negb_true_iff. split.
    + intros H. now exists o.
    + intros (o' & Heq & H). now injection Heq as ->.
Qed.

Lemma isRotationEnabled_spec (f : t) :
  isRotationEnabled f = true <-> Spec.rotation_enabled f.
Proof.
  unfold isRotationEnabled, Spec.rotation_enabled, Spec.differs, strict_neq.
  destruct (rotation f) as [| |o].
  - split; [discriminate|]. now intros (o & Heq & _).
  - split; [discriminate|]. now intros (o & Heq & _).
  - rewrite negb_true_iff. split.
    + intros H. now exists o.
    + intros (o' & Heq & H). now injection Heq as ->.
Qed.

(** The keys of the payload, one flag per optional block. *)
Lemma payload_has_key (f : t) :
  has_key "volume" (payload f) = true
  /\ has_key "equalizer" (payload f) = true
  /\ has_key "timescale" (payload f) = isTimescaleEnabled f
  /\ has_key "karaoke" (payload f) = isKaraokeEnabled f
  /\ has_key "tremolo" (payload f) = isTremoloEnabled f
  /\ has_key "rotation" (payload f) = isRotationEnabled f
  /\ has_key "distortion" (payload f) = isDistortionEnabled f.
Proof.
  unfold payload, assign_if.
  destruct (isTimescaleEnabled f), (isKaraokeEnabled f),
    (isTremoloEnabled f), (isRotationEnabled f), (isDistortionEnabled f);
    repeat split; reflexivity.
Qed.

(** C4: the payload of every filter state has the keys volume and
    equalizer, and each of timescale, karaoke, tremolo, rotation and
    distortion is a key of it exactly when the block is enabled in the
    sense of the table: timescale non-null with a field that differs from
    1, karaoke non-null, tremolo non-null with a depth that differs from
    0, rotation non-null with a rotationHz that differs from 0, distortion
    non-null with a field that differs from null. *)
Theorem payload_keys (f : t) :
  has_key "volume" (payload f) = true
  /\ has_key "equalizer" (payload f) = true
  /\ (has_key "timescale" (payload f) = true <-> Spec.timescale_enabled f)
  /\ (has_key "karaoke" (payload f) = true <-> Spec.karaoke_enabled f)
  /\ (has_key "tremolo" (payload f) = true <-> Spec.tremolo_enabled f)
  /\ (has_key "rotation" (payload f) = true <-> Spec.rotation_enabled f)
  /\ (has_key "distortion" (payload f) = true <-> Spec.distortion_enabled f).
Proof.
  destruct (payload_has_key f) as (Hv & He & Hts & Hk & Htr & Hr & Hd).
  rewrite Hts, Hk, Htr, Hr, Hd.
  repeat split; try assumption;
    first [ apply isTimescaleEnabled_spec | apply isKaraokeEnabled_spec
          | apply isTremoloEnabled_spec | apply isRotationEnabled_spec
          | apply isDistortionEnabled_spec ].
Qed.

End FilterPayload.

(** ** Node selection *)

Section Selection.

Import Manager Props.

Lemma hd_insert_by {A} (cmp : A -> A -> Z) (x : A) (l : list A) :
  hd_error (insert_by cmp x l)
  = Some (match hd_error l with
          | Some y => if cmp x y <=? 0 then x else y
          | None => x
          end).
Proof.
  destruct l as [|y ys]; simpl; [reflexivity|].
  now destruct (cmp x y <=? 0).
Qed.

Lemma pick_cons (x : Socket.t) (l : list Socket.t) :
  pick (x :: l)
  = if Socket.status x =? 0 then
      Some (match pick l with
            | Some y =>
                if Socket.penalties x - Socket.penalties y <=? 0 then x else y
            | None => x
            end)
    else pick l.
Proof.
  unfold pick. simpl. destruct (Socket.status x =? 0); [|reflexivity].
  simpl. now rewrite hd_insert_by.
Qed.

Lemma pick_none (l : list Socket.t) :
  pick l = None
  <-> forall s, In s l -> Socket.status s <> Socket.CONNECTED.
Proof.
  unfold Socket.CONNECTED.
  induction l as [|x l IH].
  - split; [intros _ s []|reflexivity].
  - rewrite pick_cons. destruct (Z.eqb_spec (Socket.status x) 0) as [E|E].
    + split; [discriminate|]. intros H. exfalso. apply (H x); [now left|exact E].
    + rewrite IH. split.
      * intros H s [<-|Hin]; [exact E|now apply H].
      * intros H s Hin. apply H. now right.
Qed.

Lemma selected_least (l : list Socket.t) (s : Socket.t) :
  selected l s ->
  forall x, In x l -> Socket.status x = Socket.CONNECTED ->
    Socket.penalties s <= Socket.penalties x.
Proof.
  intros (before & after & -> & Hs & Hb & Ha) x Hin Hx.
  apply in_app_or in Hin as [Hin|[<-|Hin]].
  - specialize (Hb x Hin Hx). lia.
  - lia.
  - now apply Ha.
Qed.

Lemma pick_selected (l : list Socket.t) (s : Socket.t) :
  pick l = Some s -> selected l s.
Proof.
  revert s. induction l as [|x l IH]; intros s; [discriminate|].
  rewrite pick_cons. destruct (Z.eqb_spec (Socket.status x) 0) as [E|E].
  - destruct (pick l) as [y|] eqn:Hl.
    + specialize (IH y eq_refl).
      destruct (Z.leb_spec (Socket.penalties x - Socket.penalties y) 0)
        as [Hle|Hgt]; intros [= <-].
      * exists [], l. repeat split; [exact E|intros ? []|].
        intros z Hz Hc. pose proof (selected_least _ _ IH z Hz Hc). lia.
      * destruct IH as (before & after & -> & Hs & Hb & Ha).
        exists (x :: before), after. repeat split; try assumption.
        intros z [<-|Hz] Hc; [lia|now apply Hb].
    + intros [= <-]. exists [], l. repeat split; [exact E|intros ? []|].
      intros z Hz Hc. exfalso. now apply (proj1 (pick_none l) Hl z Hz).
  - intros H. destruct (IH s H) as (before & after & -> & Hs & Hb & Ha).
    exists (x :: before), after. repeat split; try assumption.
    intros z [<-|Hz] Hc; [contradiction|now apply Hb].
Qed.

(** C2, as the code has it: node selection returns the CONNECTED
    connection of least penalty, the first in the order of the registry of
    sockets (the order in which they were registered) among those of that
    penalty; it returns none exactly when no connection is CONNECTED; and
    on the connections (A, CONNECTED, 3), (B, CONNECTED, 1),
    (C, RECONNECTING, 0) it returns B. *)
Theorem ideal0_selects (m : Manager.t) :
  (ideal0 m = None
   <-> forall s, In s (map_values (sockets m)) ->
         Socket.status s <> Socket.CONNECTED)
  /\ (forall s, ideal0 m = Some s -> selected (map_values (sockets m)) s)
  /\ (forall reconnecting,
        reconnecting <> Socket.CONNECTED ->
        ideal0 (set_sockets (Samples.three_sockets reconnecting) m)
        = Some Samples.socket_B).
Proof.
  split; [apply pick_none|]. split; [intros s; apply pick_selected|].
  intros rc Hrc. change (pick [Samples.socket_A; Samples.socket_B;
                               Samples.socket_C rc] = Some Samples.socket_B).
  rewrite !pick_cons. simpl.
  destruct (Z.eqb_spec rc 0) as [E|E]; [contradiction|reflexivity].
Qed.

Lemma ideal0_selects_witness :
  ideal0 (set_sockets (Samples.three_sockets 4) Samples.a_manager)
  = Some Samples.socket_B.
Proof.
  apply (proj2 (proj2 (ideal0_selects Samples.a_manager)) 4).
  unfold Socket.CONNECTED. lia.
Defined.

End Selection.

(** ** Maps *)

Section MapFacts.

Context {V : Type}.

Lemma map_get_set_eq (k : string) (v : V) (m : Map V) :
  map_get k (map_set k v m) = Some v.
Proof.
  unfold map_get, map_set.
  induction m as [|[k' v'] m IH]; simpl.
  - now rewrite String.eqb_refl.
  - destruct (String.eqb k k') eqn:E; simpl; now rewrite ?String.eqb_refl, ?E.
Qed.



Lemma map_get_notin (k : string) (m : Map V) :
  ~ In k (map fst m) -> map_get k m = None.
Proof.
  unfold map_get.
  induction m as [|[k' v'] m IH]; simpl; [reflexivity|].
  intros H. destruct (String.eqb_spec k k') as [->|E].
  - exfalso. apply H. now left.
  - apply IH. intros Hin. apply H. now right.
Qed.

Lemma In_map_get (k : string) (v : V) (m : Map V) :
  List.NoDup (map fst m) -> In (k, v) m -> map_get k m = Some v.
Proof.
  unfold map_get.
  induction m as [|[k' v'] m IH]; simpl; [intros _ []|].
  intros Hnd Hin. apply List.NoDup_cons_iff in Hnd as [Hk Hnd].
  destruct Hin as [[= -> ->]|Hin].
  - now rewrite String.eqb_refl.
  - destruct (String.eqb_spec k k') as [->|E].
    + exfalso. apply Hk. apply in_map_iff. now exists (k', v).
    + now apply IH.
Qed.

Lemma map_has_get (k : string) (m : Map V) :
  map_has k m = true <-> exists v, map_get k m = Some v.
Proof.
  unfold map_has, has_key, map_get. destruct (get_prop k m) as [v|].
  - split; [intros _; now exists v|reflexivity].
  - split; [discriminate|now intros (v & H)].
Qed.

Lemma map_get_delete_eq (k : string) (m : Map V) :
  List.NoDup (map fst m) -> map_get k (map_delete k m) = None.
Proof.
  unfold map_get.
  induction m as [|[k' v'] m IH]; simpl; [reflexivity|].
  intros Hnd. apply List.NoDup_cons_iff in Hnd as [Hk Hnd].
  destruct (String.eqb_spec k k') as [->|E].
  - now apply map_get_notin.
  - simpl. apply String.eqb_neq in E as E'. rewrite E'. now apply IH.
Qed.

Lemma map_get_delete_ne (k k' : string) (m : Map V) :
  k <> k' -> map_get k (map_delete k' m) = map_get k m.
Proof.
  unfold map_get. intros Hne.
  induction m as [|[k2 v2] m IH]; simpl; [reflexivity|].
  destruct (String.eqb_spec k' k2) as [->|E]; simpl.
  - now apply String.eqb_neq in Hne as ->.
  - now rewrite IH.
Qed.

Lemma map_delete_incl (k : string) (m : Map V) (e : string * V) :
  In e (map_delete k m) -> In e m.
Proof.
  induction m as [|[k' v'] m IH]; simpl; [intros []|].
  destruct (String.eqb k k'); [now right|].
  intros [<-|Hin]; [now left|right; now apply IH].
Qed.

Lemma map_delete_NoDup (k : string) (m : Map V) :
  List.NoDup (map fst m) -> List.NoDup (map fst (map_delete k m)).
Proof.
  induction m as [|[k' v'] m IH]; simpl; [intros H; exact H|].
  intros Hnd. apply List.NoDup_cons_iff in Hnd as [Hk Hnd].
  destruct (String.eqb k k'); [exact Hnd|].
  simpl. apply List.NoDup_cons; [|now apply IH].
  intros Hin. apply Hk. apply in_map_iff in Hin as (e & <- & Hin).
  apply in_map. now apply map_delete_incl in Hin.
Qed.

End MapFacts.

(** ** Creating players *)

Section Create.

Import Manager.

(** C3: once create-player has returned a player for a guild id, a second
    call for that guild id, whatever connection it is given, returns the
    same instance and changes nothing: the player stays bound to the
    connection it had. *)
Theorem create_twice (guild guild' : Guild) (socket socket' : option Socket.t)
    (w w1 : World) (player : ref) :
  guild_key guild' = guild_key guild ->
  create guild socket w = (Return player, w1) ->
  create guild' socket' w1 = (Return player, w1)
  /\ (Player.socket <$> heap (snd (create guild' socket' w1)) !! player)
     = (Player.socket <$> heap w1 !! player).
Proof.
  intros Hkey Hcreate.
  assert (Hget : map_get (guild_key guild) (players (manager w1)) = Some player).
  { unfold create in Hcreate.
    destruct (map_get (guild_key guild) (players (manager w))) as [r|] eqn:Hg.
    - injection Hcreate as <- <-. exact Hg.
    - destruct (match socket with Some s => Some s | None => ideal0 (manager w) end)
        as [s|]; [|discriminate].
      simpl in Hcreate. injection Hcreate as <- <-. simpl.
      apply map_get_set_eq. }
  assert (H : create guild' socket' w1 = (Return player, w1)).
  { unfold create. now rewrite Hkey, Hget. }
  split; [exact H|]. now rewrite H.
Qed.

Lemma create_twice_witness :
  let w := Samples.world_of Samples.player_P 0 in
  let w1 := snd (create (GuildId "g2") (Some Samples.socket_Y) w) in
  create (GuildObject "g2") (Some Samples.socket_X) w1 = (Return 1%nat, w1)
  /\ (Player.socket <$> heap w1 !! 1%nat) = Some Samples.socket_Y.
Proof.
  intros w w1. split.
  - apply (create_twice (GuildId "g2") (GuildObject "g2")
             (Some Samples.socket_Y) (Some Samples.socket_X) w w1 1%nat);
      reflexivity.
  - vm_compute. reflexivity.
Defined.

(** C10: create-player for a guild id that has a player returns that
    player, and leaves everything as it was, also when no connection is
    given and none is connected; and when create-player throws, the guild
    id had no player, no connection was given and none was connected. *)
Theorem create_existing_needs_no_node :
  (forall (guild : Guild) (w : World) (existing : ref),
      map_get (guild_key guild) (players (manager w)) = Some existing ->
      ideal0 (manager w) = None ->
      create guild None w = (Return existing, w))
  /\ (forall (guild : Guild) (socket : option Socket.t) (w w' : World)
             (e : Error),
        create guild socket w = (Throw e, w') ->
        map_get (guild_key guild) (players (manager w)) = None
        /\ socket = None /\ ideal0 (manager w) = None
        /\ e = PlainError "Manager#create(): No available nodes."
        /\ w' = w).
Proof.
  split.
  - intros guild w existing Hget _. unfold create. now rewrite Hget.
  - intros guild socket w w' e. unfold create.
    destruct (map_get (guild_key guild) (players (manager w))) as [r|];
      [discriminate|].
    destruct socket as [s|]; [discriminate|].
    destruct (ideal0 (manager w)) as [s|]; [discriminate|].
    intros [= <- <-]. repeat split.
Qed.

Lemma create_existing_needs_no_node_witness :
  let w := Samples.world_of Samples.player_P 0 in
  ideal0 (manager w) = None
  /\ create (GuildId "g1") None w = (Return O, w)
  /\ exists e, fst (create (GuildId "g2") None w) = Throw e.
Proof.
  intros w. split; [reflexivity|]. split.
  - apply (proj1 create_existing_needs_no_node (GuildId "g1") w O);
      reflexivity.
  - eexists. reflexivity.
Defined.

End Create.

(** ** How the methods of the player change the world *)

Section WorldFacts.

Import Manager.

Lemma strict_eq_str_eq (a b : nullable string) :
  strict_eq_str a b = true <-> a = b.
Proof.
  destruct a as [| |x], b as [| |y]; simpl; split;
    try reflexivity; try discriminate.
  - intros H. apply String.eqb_eq in H. now subst.
  - intros [= ->]. apply String.eqb_refl.
Qed.


Lemma lookup_write_eq (r : ref) (f : Player.t -> Player.t) (w : World) :
  heap (write r f w) !! r = f <$> heap w !! r.
Proof. simpl. apply lookup_alter_eq. Qed.


Lemma Player_send_heap r op data prioritize w :
  heap (Player_send r op data prioritize w) = heap w.
Proof. unfold Player_send. now destruct (heap w !! r). Qed.



Lemma Player_send_trace r op data prioritize w p :
  heap w !! r = Some p ->
  trace (Player_send r op data prioritize w)
  = trace w ++ [Send r (Socket.id (Player.socket p)) op data prioritize].
Proof. unfold Player_send. now intros ->. Qed.


Lemma handleVoiceUpdate_heap (r : ref) (u : VoiceUpdate) (w : World) :
  heap (Player_handleVoiceUpdate r u w)
  = alter (match u with
           | ServerUpdate s => Player.set_server (Val s)
           | StateUpdate s => Player.set_sessionId (Val (session_id s))
           end) r (heap w).
Proof.
  unfold Player_handleVoiceUpdate.
  destruct u as [s|s];
    match goal with
    | |- context [heap ?w1 !! r] => destruct (heap w1 !! r) as [p|]
    end; try reflexivity;
    destruct (Player._sessionId p), (Player._server p);
    rewrite ?Player_send_heap; reflexivity.
Qed.

Lemma handleVoiceUpdate_trace (r : ref) (u : VoiceUpdate) (w : World) :
  exists sent, trace (Player_handleVoiceUpdate r u w) = trace w ++ sent.
Proof.
  unfold Player_handleVoiceUpdate.
  destruct u as [s|s];
    match goal with
    | |- context [heap ?w1 !! r] => destruct (heap w1 !! r) as [p|] eqn:Hp
    end; try (exists []; now rewrite app_nil_r);
    destruct (Player._sessionId p), (Player._server p);
    try (exists []; now rewrite app_nil_r);
    eexists; erewrite Player_send_trace by exact Hp; reflexivity.
Qed.

End WorldFacts.

(** ** Voice state updates *)

Section StateUpdate.

Import Manager.

(** C8: a voice state update whose user id is not the one the manager is
    configured with changes nothing and dispatches nothing; one whose user
    id is the manager's and whose channel differs from the channel of the
    guild's player raises "move" with the new channel on that player and
    stores the new channel in it. *)
Theorem stateUpdate_user_and_move :
  (forall (update : DiscordVoiceState) (w : World),
      userId (manager w) <> Some (user_id update) ->
      stateUpdate update w = w)
  /\ (forall (update : DiscordVoiceState) (w : World) (player : ref)
             (p : Player.t),
        userId (manager w) = Some (user_id update) ->
        map_get (guild_id update) (players (manager w)) = Some player ->
        heap w !! player = Some p ->
        channel_id update <> Player.channel p ->
        (exists sent,
            trace (stateUpdate update w)
            = trace w ++ Emit player "move" (channel_id update) :: sent)
        /\ (Player.channel <$> heap (stateUpdate update w) !! player)
           = Some (channel_id update)).
Proof.
  split.
  - intros update w Huser. unfold stateUpdate, own_user.
    destruct (map_get (guild_id update) (players (manager w))); [|reflexivity].
    destruct (userId (manager w)) as [u|]; [|reflexivity].
    destruct (String.eqb_spec (user_id update) u) as [E|]; [|reflexivity].
    exfalso. apply Huser. now rewrite E.
  - intros update w player p Huser Hget Hp Hch. unfold stateUpdate, own_user.
    rewrite Hget, Huser, String.eqb_refl, Hp.
    destruct (strict_eq_str (channel_id update) (Player.channel p)) eqn:E.
    { apply strict_eq_str_eq in E. contradiction. }
    simpl negb. cbv iota. split.
    + match goal with
      | |- context [Player_handleVoiceUpdate ?r ?u ?w1] =>
          destruct (handleVoiceUpdate_trace r u w1) as (sent & ->)
      end.
      exists sent. simpl. now rewrite <- app_assoc.
    + rewrite handleVoiceUpdate_heap, lookup_alter_eq, lookup_write_eq.
      simpl. now rewrite Hp.
Qed.

Lemma stateUpdate_user_and_move_witness :
  let w := Samples.world_of Samples.player_P 0 in
  let update := {| channel_id := Val "c2"; guild_id := "g1";
                   user_id := "bot"; session_id := "s2" |} in
  (Player.channel <$> heap (stateUpdate update w) !! O) = Some (Val "c2").
Proof.
  intros w update.
  apply (proj2 stateUpdate_user_and_move update w O Samples.player_P);
    [reflexivity|reflexivity|reflexivity|discriminate].
Defined.

End StateUpdate.

(** ** Construction *)

Section Construction.

Import Manager.

(** C7, as the code has it: the constructor throws when the send option is
    there and is not a function, and when a shard count below 1 is given;
    when the send option is left out, the send of the defaults is taken,
    so that construction goes through with the function the defaults hold,
    and the send function of the defaults, as the module is loaded, throws
    when it is called. *)
Theorem constructor_throws (defaults options : Options.t)
    (nodes : list Socket.SocketData) :
  (forall v,
      Options.send options = Some v ->
      (forall f, v <> Options.SendFunction f) ->
      result (constructor defaults nodes options)
      = Throw (TypeError
          "Please provide a send function for sending packets to discord."))
  /\ (forall n,
        Options.shards options = Some (Val n) -> n < 1 ->
        exists message,
          result (constructor defaults nodes options)
          = Throw (TypeError message))
  /\ (forall f,
        Options.send options = None ->
        Options.send defaults = Some (Options.SendFunction f) ->
        Options.shards_rejected (Options.assign defaults options) = false ->
        exists m,
          result (constructor defaults nodes options) = Return m
          /\ send m = Some (Options.SendFunction f))
  /\ (forall random_key,
        Options.send (Options.defaults random_key)
        = Some (Options.SendFunction Options.DefaultSend))
  /\ Options.call_send Options.DefaultSend
     = Throw (PlainError "Please Provide Send Function").
Proof.
  repeat split.
  - intros v Hv Hnf. unfold constructor, Options.send_rejected. simpl.
    rewrite Hv. simpl. destruct v as [| |f|]; try reflexivity.
    now contradiction (Hnf f).
  - intros n Hn Hlt. unfold constructor.
    destruct (Options.send_rejected _); [eexists; reflexivity|].
    unfold Options.shards_rejected. simpl. rewrite Hn. simpl.
    apply Z.ltb_lt in Hlt as ->. eexists; reflexivity.
  - intros f Hs Hd Hsh. unfold constructor, Options.send_rejected. simpl.
    rewrite Hs. simpl. rewrite Hd, Hsh. eexists. split; reflexivity.
Qed.

Lemma constructor_throws_witness :
  exists message,
    result (constructor (Options.defaults "key") [] (Samples.with_shards 0))
    = Throw (TypeError message).
Proof.
  apply (proj1 (proj2 (constructor_throws (Options.defaults "key")
                         (Samples.with_shards 0) [])) 0);
    [reflexivity|lia].
Defined.

(** C7 as stated fails: with no send option at all the constructor of a
    freshly loaded module returns a manager. *)
Lemma constructor_without_send_returns :
  ~ (exists e,
        result (constructor (Options.defaults "key") [] Samples.no_options)
        = Throw e).
Proof. intros (e & H). vm_compute in H. discriminate H. Qed.

End Construction.

(** ** Failover: one run of find_socket *)

Section FindSocket.

Import Manager Props.

Lemma history_app (r : ref) (w w' : World) (es : list Event) :
  trace w' = trace w ++ es ->
  history r w' = history r w ++ List.filter (about r) es.
Proof. unfold history. intros ->. apply List.filter_app. Qed.

Lemma relocation_about (r : ref) (p : Player.t) (s : Socket.t) (t : Z) :
  List.filter (about r) (relocation r p s t) = relocation r p s t.
Proof.
  unfold relocation.
  destruct (Player.track p) as [| |tr]; [| |destruct (truthy_str (Val tr))];
    unfold about; simpl; rewrite ?Nat.eqb_refl; reflexivity.
Qed.

Lemma relocation_not_about (r r' : ref) (p : Player.t) (s : Socket.t) (t : Z) :
  r' <> r -> List.filter (about r) (relocation r' p s t) = [].
Proof.
  intros Hne. apply Nat.eqb_neq in Hne.
  unfold relocation.
  destruct (Player.track p) as [| |tr]; [| |destruct (truthy_str (Val tr))];
    unfold about; simpl; rewrite ?Hne; reflexivity.
Qed.

Lemma find_socket_none (t : Task) (w : World) :
  ideal0 (manager w) = None ->
  find_socket t w = (log (SetTimeout (task_player t) 1000) w, Some t).
Proof. unfold find_socket. now intros ->. Qed.

(** A run of [find_socket] that finds [s]: the player is bound to [s] and
    the messages of the relocation go out. *)
Lemma find_socket_some (t : Task) (w : World) (s : Socket.t) :
  ideal0 (manager w) = Some s ->
  exists w',
    find_socket t w = (w', None)
    /\ manager w' = manager w
    /\ now w' = now w
    /\ heap w' = alter (Player.set_socket s) (task_player t) (heap w)
    /\ trace w'
       = trace w
         ++ match heap w !! task_player t with
            | Some p =>
                relocation (task_player t) p s
                  (task_position t + (now w - task_startfind t + 1000))
            | None => []
            end.
Proof.
  intros Hs. unfold find_socket. rewrite Hs.
  eexists. split; [reflexivity|].
  unfold Player_move, Filters_apply.
  rewrite lookup_write_eq.
  destruct (heap w !! task_player t) as [p|] eqn:Hp; simpl fmap; cbv iota.
  - rewrite Player_send_heap, lookup_write_eq, Hp. simpl fmap. cbv iota.
    rewrite Player_send_heap, Player_send_heap, lookup_write_eq, Hp.
    simpl fmap. cbv iota. unfold relocation.
    destruct (Player.track p) as [| |tr] eqn:Htr; simpl Player.track;
      rewrite Htr; [| |destruct (truthy_str (Val tr))];
      unfold Player_play, Player_send;
      rewrite ?Player_send_heap, ?lookup_write_eq, Hp; simpl;
      repeat (rewrite lookup_alter_eq, Hp; simpl); rewrite <- ?List.app_assoc;
      repeat split; reflexivity.
  - rewrite lookup_write_eq, Hp. simpl fmap. cbv iota.
    rewrite lookup_write_eq, Hp. simpl. rewrite List.app_nil_r.
    repeat split; reflexivity.
Qed.

End FindSocket.

(** ** Failover: what a run of find_socket leaves alone *)

Section Frames.

Import Manager Props.

Lemma same_guilds_refl (w : World) : same_guilds w w.
Proof. intros r. reflexivity. Qed.

Lemma same_guilds_trans (w1 w2 w3 : World) :
  same_guilds w1 w2 -> same_guilds w2 w3 -> same_guilds w1 w3.
Proof. intros H12 H23 r. now rewrite H23, H12. Qed.

Lemma ideal0_sockets (m m' : Manager.t) :
  sockets m' = sockets m -> ideal0 m' = ideal0 m.
Proof. unfold ideal0, ideal. now intros ->. Qed.

Lemma find_socket_pending (t : Task) (w : World) :
  snd (find_socket t w)
  = match ideal0 (manager w) with
    | Some _ => None
    | None => Some t
    end.
Proof.
  destruct (ideal0 (manager w)) as [s|] eqn:Hs.
  - destruct (find_socket_some t w s Hs) as (w' & -> & _). reflexivity.
  - now rewrite find_socket_none.
Qed.

Lemma find_socket_env (t : Task) (w : World) :
  manager (fst (find_socket t w)) = manager w
  /\ now (fst (find_socket t w)) = now w
  /\ same_guilds w (fst (find_socket t w)).
Proof.
  destruct (ideal0 (manager w)) as [s|] eqn:Hs.
  - destruct (find_socket_some t w s Hs) as (w' & -> & Hm & Hn & Hh & _).
    simpl. repeat split; try assumption.
    intros r. rewrite Hh.
    destruct (decide (task_player t = r)) as [<-|Hne].
    + rewrite lookup_alter_eq. now destruct (heap w !! task_player t).
    + now rewrite lookup_alter_ne.
  - rewrite find_socket_none by exact Hs. simpl.
    split; [reflexivity|]. split; [reflexivity|]. intros r. reflexivity.
Qed.

Lemma find_socket_frame (r : ref) (t : Task) (w : World) :
  task_player t <> r ->
  heap (fst (find_socket t w)) !! r = heap w !! r
  /\ history r (fst (find_socket t w)) = history r w.
Proof.
  intros Hne. destruct (ideal0 (manager w)) as [s|] eqn:Hs.
  - destruct (find_socket_some t w s Hs) as (w' & -> & _ & _ & Hh & Ht).
    simpl. split.
    + rewrite Hh. now apply lookup_alter_ne.
    + rewrite (history_app r w w' _ Ht).
      destruct (heap w !! task_player t) as [p|].
      * rewrite relocation_not_about by exact Hne. apply List.app_nil_r.
      * apply List.app_nil_r.
  - rewrite find_socket_none by exact Hs. simpl. split; [reflexivity|].
    unfold history. simpl. rewrite List.filter_app. simpl.
    unfold about. simpl. apply Nat.eqb_neq in Hne as ->. apply List.app_nil_r.
Qed.

(** The run of the task of [r] itself. *)
Lemma find_socket_own (r : ref) (p : Player.t) (t : Task) (w : World) :
  task_player t = r ->
  heap w !! r = Some p ->
  match ideal0 (manager w) with
  | Some s =>
      heap (fst (find_socket t w)) !! r = Some (Player.set_socket s p)
      /\ history r (fst (find_socket t w))
         = history r w
           ++ relocation r p s
                (task_position t + (now w - task_startfind t + 1000))
  | None =>
      heap (fst (find_socket t w)) !! r = Some p
      /\ history r (fst (find_socket t w))
         = history r w ++ [SetTimeout r 1000]
  end.
Proof.
  intros <- Hp. destruct (ideal0 (manager w)) as [s|] eqn:Hs.
  - destruct (find_socket_some t w s Hs) as (w' & -> & _ & _ & Hh & Ht).
    simpl. split.
    + now rewrite Hh, lookup_alter_eq, Hp.
    + rewrite (history_app _ w w' _ Ht), Hp. now rewrite relocation_about.
  - rewrite find_socket_none by exact Hs. simpl. split; [exact Hp|].
    unfold history. simpl. rewrite List.filter_app. simpl.
    unfold about. simpl. now rewrite Nat.eqb_refl.
Qed.

Lemma fire_env (tasks : list Task) (w : World) :
  manager (fst (fire tasks w)) = manager w
  /\ now (fst (fire tasks w)) = now w
  /\ same_guilds w (fst (fire tasks w))
  /\ snd (fire tasks w)
     = match ideal0 (manager w) with
       | Some _ => []
       | None => tasks
       end.
Proof.
  revert w. induction tasks as [|t tasks IH]; intros w; simpl.
  - split; [reflexivity|]. split; [reflexivity|].
    split; [apply same_guilds_refl|now destruct (ideal0 (manager w))].
  - pose proof (find_socket_env t w) as (Hm & Hn & Hg).
    pose proof (find_socket_pending t w) as Hp.
    destruct (find_socket t w) as [w1 o]. simpl in *.
    specialize (IH w1) as (Hm' & Hn' & Hg' & Hp').
    destruct (fire tasks w1) as [w2 pending]. simpl in *.
    rewrite Hm', Hm, Hn', Hn. repeat split.
    + eapply same_guilds_trans; eassumption.
    + subst o pending. rewrite Hm. now destruct (ideal0 (manager w)).
Qed.

Lemma fire_frame (r : ref) (tasks : list Task) (w : World) :
  others r tasks ->
  heap (fst (fire tasks w)) !! r = heap w !! r
  /\ history r (fst (fire tasks w)) = history r w.
Proof.
  unfold others. revert w.
  induction tasks as [|t tasks IH]; intros w Hall; simpl.
  - now split.
  - apply Forall_cons_iff in Hall as [Hne Hall].
    pose proof (find_socket_frame r t w Hne) as (Hh & Hi).
    destruct (find_socket t w) as [w1 o]. simpl in *.
    specialize (IH w1 Hall) as (Hh' & Hi').
    destruct (fire tasks w1) as [w2 pending]. simpl in *.
    now rewrite Hh', Hi'.
Qed.

Lemma fire_app (l1 l2 : list Task) (w : World) :
  fire (l1 ++ l2) w
  = (fst (fire l2 (fst (fire l1 w))),
     snd (fire l1 w) ++ snd (fire l2 (fst (fire l1 w)))).
Proof.
  revert w. induction l1 as [|t l1 IH]; intros w; simpl.
  - now destruct (fire l2 w).
  - destruct (find_socket t w) as [w1 o]. rewrite IH.
    destruct (fire l1 w1) as [w2 p1]. simpl.
    destruct (fire l2 w2) as [w3 p2]. simpl.
    now destruct o.
Qed.

(** The timers fire once, the one of [r] among them. *)
Lemma fire_own (r : ref) (p : Player.t) (t : Task) (l1 l2 : list Task)
    (w : World) :
  task_player t = r -> others r l1 -> others r l2 ->
  heap w !! r = Some p ->
  match ideal0 (manager w) with
  | Some s =>
      heap (fst (fire (l1 ++ t :: l2) w)) !! r = Some (Player.set_socket s p)
      /\ history r (fst (fire (l1 ++ t :: l2) w))
         = history r w
           ++ relocation r p s
                (task_position t + (now w - task_startfind t + 1000))
  | None =>
      heap (fst (fire (l1 ++ t :: l2) w)) !! r = Some p
      /\ history r (fst (fire (l1 ++ t :: l2) w))
         = history r w ++ [SetTimeout r 1000]
  end.
Proof.
  intros Ht H1 H2 Hp. rewrite fire_app. simpl fst.
  pose proof (fire_frame r l1 w H1) as (Hh1 & Hi1).
  pose proof (fire_env l1 w) as (Hm1 & Hn1 & _).
  set (w1 := fst (fire l1 w)) in *.
  simpl fire.
  assert (Hp1 : heap w1 !! r = Some p) by now rewrite Hh1.
  pose proof (find_socket_own r p t w1 Ht Hp1) as Hown.
  pose proof (find_socket_env t w1) as (Hm2 & _).
  destruct (find_socket t w1) as [w2 o]. simpl in *.
  pose proof (fire_frame r l2 w2 H2) as (Hh3 & Hi3).
  destruct (fire l2 w2) as [w3 pending]. simpl in *.
  rewrite Hh3, Hi3. rewrite Hm1, Hn1, Hi1 in Hown. exact Hown.
Qed.

End Frames.

(** ** Failover: the sweep over the registry *)

Section Sweep.

Import Manager Props.

Lemma visit_env (socket : Socket.t) (r' : ref) (w : World) :
  sockets (manager (fst (visit socket r' w))) = sockets (manager w)
  /\ now (fst (visit socket r' w)) = now w
  /\ same_guilds w (fst (visit socket r' w))
  /\ (List.NoDup (map fst (players (manager w))) ->
      List.NoDup (map fst (players (manager (fst (visit socket r' w)))))).
Proof.
  unfold visit. destruct (heap w !! r') as [p'|];
    [|repeat split; solve [reflexivity | tauto | apply same_guilds_refl]].
  destruct (String.eqb _ _);
    [|repeat split; solve [reflexivity | tauto | apply same_guilds_refl]].
  destruct (negb _).
  - simpl. split; [reflexivity|]. split; [reflexivity|].
    split; [intros r; reflexivity|]. apply map_delete_NoDup.
  - match goal with
    | |- context [find_socket ?t w] =>
        pose proof (find_socket_env t w) as (Hm & Hn & Hg);
        destruct (find_socket t w) as [w1 o]
    end.
    simpl in *. rewrite Hm. repeat split; try assumption. tauto.
Qed.

Lemma visit_frame (socket : Socket.t) (r r' : ref) (k k' : string)
    (w : World) :
  r' <> r ->
  (Player.guild <$> heap w !! r') = Some k' ->
  k' <> k ->
  heap (fst (visit socket r' w)) !! r = heap w !! r
  /\ history r (fst (visit socket r' w)) = history r w
  /\ map_get k (players (manager (fst (visit socket r' w))))
     = map_get k (players (manager w))
  /\ others r (option_cons (snd (visit socket r' w)) []).
Proof.
  intros Hr Hg Hk. unfold visit, others.
  destruct (heap w !! r') as [p'|]; [|discriminate].
  injection Hg as Hg.
  destruct (String.eqb _ _); [|repeat split; constructor].
  destruct (negb _).
  - simpl. repeat split; [|constructor].
    rewrite Hg. apply map_get_delete_ne. congruence.
  - match goal with
    | |- context [find_socket ?t w] =>
        pose proof (find_socket_env t w) as (Hm & _);
        pose proof (find_socket_frame r t w Hr) as (Hh & Hi);
        pose proof (find_socket_pending t w) as Hp;
        destruct (find_socket t w) as [w1 o]
    end.
    simpl in *. rewrite Hm. repeat split; try assumption.
    subst o. destruct (ideal0 (manager w)); simpl; repeat constructor.
    exact Hr.
Qed.

(** The sweep over entries none of which is the one of [r]. *)
Lemma forEach_frame (socket : Socket.t) (r : ref) (k : string)
    (entries : list (string * ref)) (w : World) :
  (forall k' r', In (k', r') entries ->
     (Player.guild <$> heap w !! r') = Some k' /\ k' <> k /\ r' <> r) ->
  heap (fst (forEach socket entries w)) !! r = heap w !! r
  /\ history r (fst (forEach socket entries w)) = history r w
  /\ map_get k (players (manager (fst (forEach socket entries w))))
     = map_get k (players (manager w))
  /\ sockets (manager (fst (forEach socket entries w))) = sockets (manager w)
  /\ now (fst (forEach socket entries w)) = now w
  /\ others r (snd (forEach socket entries w)).
Proof.
  revert w. induction entries as [|[k' r'] entries IH]; intros w Hall; simpl.
  - repeat split. constructor.
  - destruct (map_has k' (players (manager w))).
    + destruct (Hall k' r' (or_introl eq_refl)) as (Hg & Hk & Hr).
      pose proof (visit_frame socket r r' k k' w Hr Hg Hk)
        as (Hh & Hi & Hp & Ho).
      pose proof (visit_env socket r' w) as (Hs & Hn & Hsg & _).
      destruct (visit socket r' w) as [w1 o]. simpl in *.
      assert (Hall1 : forall k2 r2, In (k2, r2) entries ->
                (Player.guild <$> heap w1 !! r2) = Some k2 /\ k2 <> k /\ r2 <> r).
      { intros k2 r2 Hin. rewrite Hsg. apply Hall. now right. }
      specialize (IH w1 Hall1) as (Hh' & Hi' & Hp' & Hs' & Hn' & Ho').
      destruct (forEach socket entries w1) as [w2 ts]. simpl in *.
      rewrite Hh', Hi', Hp', Hs', Hn'. repeat split; try assumption.
      unfold others in *. destruct o as [t|]; simpl; [|exact Ho'].
      constructor; [now inversion Ho|exact Ho'].
    + apply IH. intros k2 r2 Hin. apply Hall. now right.
Qed.

End Sweep.

Section SweepOwn.

Import Manager Props.

Variable socket : Socket.t.
Variable r : ref.
Variable k : string.
Variable p : Player.t.
Hypothesis affected : Socket.id (Player.socket p) = Socket.id socket.

(** The other entries of a list of entries with distinct keys that holds
    the entry of [r]. *)
Lemma other_entries (entries : list (string * ref)) (w : World) :
  ~ In k (map fst entries) ->
  (Player.guild <$> heap w !! r) = Some k ->
  (forall k' r', In (k', r') entries ->
     (Player.guild <$> heap w !! r') = Some k') ->
  forall k' r', In (k', r') entries ->
    (Player.guild <$> heap w !! r') = Some k' /\ k' <> k /\ r' <> r.
Proof.
  intros Hk Hg Hall k' r' Hin.
  assert (Hk' : k' <> k).
  { intros ->. apply Hk. apply in_map_iff. now exists (k, r'). }
  repeat split; [now apply Hall|exact Hk'|].
  intros ->. apply Hall in Hin. congruence.
Qed.

Lemma visit_own (w : World) :
  heap w !! r = Some p ->
  truthy_str (Player.channel p) = true ->
  visit socket r w = find_socket (task_of r p w) w.
Proof.
  intros Hp Hc. unfold visit. now rewrite Hp, affected, String.eqb_refl, Hc.
Qed.

Lemma visit_stale (w : World) :
  heap w !! r = Some p ->
  truthy_str (Player.channel p) = false ->
  visit socket r w
  = (with_manager
       (fun m => set_players (map_delete (Player.guild p) (players m)) m) w,
     None).
Proof.
  intros Hp Hc. unfold visit. now rewrite Hp, affected, String.eqb_refl, Hc.
Qed.

(** The sweep reaches a player that is in a channel: its task runs once,
    at the time of the sweep. *)
Lemma forEach_own (entries : list (string * ref)) (w : World) :
  List.NoDup (map fst entries) ->
  (forall k' r', In (k', r') entries ->
     (Player.guild <$> heap w !! r') = Some k') ->
  In (k, r) entries ->
  map_get k (players (manager w)) = Some r ->
  heap w !! r = Some p ->
  truthy_str (Player.channel p) = true ->
  sockets (manager (fst (forEach socket entries w))) = sockets (manager w)
  /\ now (fst (forEach socket entries w)) = now w
  /\ map_get k (players (manager (fst (forEach socket entries w)))) = Some r
  /\ match ideal0 (manager w) with
     | Some s =>
         heap (fst (forEach socket entries w)) !! r
         = Some (Player.set_socket s p)
         /\ history r (fst (forEach socket entries w))
            = history r w
              ++ relocation r p s
                   (Z.max (Player.position p) 0 + (now w - now w + 1000))
         /\ others r (snd (forEach socket entries w))
     | None =>
         heap (fst (forEach socket entries w)) !! r = Some p
         /\ history r (fst (forEach socket entries w))
            = history r w ++ [SetTimeout r 1000]
         /\ exists l1 l2,
              snd (forEach socket entries w) = l1 ++ task_of r p w :: l2
              /\ others r l1 /\ others r l2
     end.
Proof.
  revert w. induction entries as [|[k0 r0] entries IH];
    intros w Hnd Hall Hin Hget Hp Hc; [destruct Hin|].
  simpl in Hnd. apply List.NoDup_cons_iff in Hnd as [Hk0 Hnd].
  assert (Hg : (Player.guild <$> heap w !! r) = Some k).
  { now apply Hall. }
  simpl forEach. destruct Hin as [[= -> ->]|Hin].
  - (* the entry of r *)
    assert (Hhas : map_has k (players (manager w)) = true).
    { apply map_has_get. now exists r. }
    rewrite Hhas, (visit_own w Hp Hc).
    pose proof (find_socket_own r p (task_of r p w) w eq_refl Hp) as Hown.
    pose proof (find_socket_env (task_of r p w) w) as (Hm & Hn & Hsg).
    pose proof (find_socket_pending (task_of r p w) w) as Hpend.
    destruct (find_socket (task_of r p w) w) as [w1 o]. simpl in *.
    assert (Hrest : forall k' r', In (k', r') entries ->
              (Player.guild <$> heap w1 !! r') = Some k' /\ k' <> k /\ r' <> r).
    { apply other_entries; [exact Hk0|now rewrite Hsg|].
      intros k' r' Hin. rewrite Hsg. apply Hall. now right. }
    pose proof (forEach_frame socket r k entries w1 Hrest)
      as (Hh & Hi & Hpl & Hs & Hn' & Ho).
    destruct (forEach socket entries w1) as [w2 ts]. simpl in *.
    rewrite Hs, Hn', Hpl, Hm, Hn, Hh, Hi.
    split; [reflexivity|]. split; [reflexivity|]. split; [exact Hget|].
    destruct (ideal0 (manager w)) as [s|]; subst o; simpl.
    + destruct Hown as (Hown1 & Hown2). now repeat split.
    + destruct Hown as (Hown1 & Hown2). repeat split; try assumption.
      exists [], ts. repeat split; [constructor|exact Ho].
  - (* another entry first *)
    assert (Hk : k0 <> k).
    { intros ->. apply Hk0. apply in_map_iff. now exists (k, r). }
    assert (Hr : r0 <> r).
    { intros ->. specialize (Hall k0 r (or_introl eq_refl)). congruence. }
    assert (Hall' : forall k' r', In (k', r') entries ->
              (Player.guild <$> heap w !! r') = Some k').
    { intros k' r' Hin'. apply Hall. now right. }
    destruct (map_has k0 (players (manager w))); [|now apply IH].
    pose proof (visit_frame socket r r0 k k0 w Hr
                  (Hall k0 r0 (or_introl eq_refl)) Hk) as (Hh & Hi & Hpl & Ho).
    pose proof (visit_env socket r0 w) as (Hs & Hn & Hsg & _).
    destruct (visit socket r0 w) as [w1 o]. simpl in *.
    assert (Hall1 : forall k' r', In (k', r') entries ->
              (Player.guild <$> heap w1 !! r') = Some k').
    { intros k' r' Hin'. rewrite Hsg. now apply Hall'. }
    specialize (IH w1 Hnd Hall1 Hin).
    rewrite Hpl, Hh in IH. specialize (IH Hget Hp Hc).
    destruct IH as (Hs' & Hn' & Hget' & IH).
    rewrite (ideal0_sockets _ _ Hs), Hi, Hn in IH.
    assert (Htask : task_of r p w1 = task_of r p w).
    { unfold task_of. now rewrite Hn. }
    rewrite Htask in IH.
    destruct (forEach socket entries w1) as [w2 ts]. simpl in *.
    rewrite Hs', Hn', Hs, Hn.
    split; [reflexivity|]. split; [reflexivity|]. split; [exact Hget'|].
    destruct (ideal0 (manager w)) as [s|].
    + destruct IH as (IH1 & IH2 & IH3). repeat split; try assumption.
      unfold others in *. destruct o as [t|]; simpl; [|exact IH3].
      constructor; [now inversion Ho|exact IH3].
    + destruct IH as (IH1 & IH2 & l1 & l2 & -> & Hl1 & Hl2).
      repeat split; try assumption.
      exists (option_cons o l1), l2. repeat split; try assumption.
      * now destruct o.
      * unfold others in *. destruct o as [t|]; simpl; [|exact Hl1].
        constructor; [now inversion Ho|exact Hl1].
Qed.

(** The sweep reaches a player that is in no channel: its entry goes, and
    that is all. *)
Lemma forEach_stale (entries : list (string * ref)) (w : World) :
  List.NoDup (map fst entries) ->
  List.NoDup (map fst (players (manager w))) ->
  (forall k' r', In (k', r') entries ->
     (Player.guild <$> heap w !! r') = Some k') ->
  In (k, r) entries ->
  map_get k (players (manager w)) = Some r ->
  heap w !! r = Some p ->
  truthy_str (Player.channel p) = false ->
  heap (fst (forEach socket entries w)) !! r = Some p
  /\ history r (fst (forEach socket entries w)) = history r w
  /\ map_get k (players (manager (fst (forEach socket entries w)))) = None
  /\ others r (snd (forEach socket entries w)).
Proof.
  revert w. induction entries as [|[k0 r0] entries IH];
    intros w Hnd Hreg Hall Hin Hget Hp Hc; [destruct Hin|].
  simpl in Hnd. apply List.NoDup_cons_iff in Hnd as [Hk0 Hnd].
  assert (Hg : (Player.guild <$> heap w !! r) = Some k).
  { now apply Hall. }
  simpl forEach. destruct Hin as [[= -> ->]|Hin].
  - assert (Hhas : map_has k (players (manager w)) = true).
    { apply map_has_get. now exists r. }
    rewrite Hhas, (visit_stale w Hp Hc).
    set (w1 := with_manager _ w).
    assert (Hgp : Player.guild p = k).
    { rewrite Hp in Hg. now injection Hg. }
    assert (Hrest : forall k' r', In (k', r') entries ->
              (Player.guild <$> heap w1 !! r') = Some k' /\ k' <> k /\ r' <> r).
    { apply other_entries; [exact Hk0|exact Hg|].
      intros k' r' Hin. apply Hall. now right. }
    pose proof (forEach_frame socket r k entries w1 Hrest)
      as (Hh & Hi & Hpl & _ & _ & Ho).
    destruct (forEach socket entries w1) as [w2 ts]. simpl in *.
    rewrite Hh, Hi, Hpl. repeat split; try assumption.
    rewrite Hgp. now apply map_get_delete_eq.
  - assert (Hk : k0 <> k).
    { intros ->. apply Hk0. apply in_map_iff. now exists (k, r). }
    assert (Hr : r0 <> r).
    { intros ->. specialize (Hall k0 r (or_introl eq_refl)). congruence. }
    assert (Hall' : forall k' r', In (k', r') entries ->
              (Player.guild <$> heap w !! r') = Some k').
    { intros k' r' Hin'. apply Hall. now right. }
    destruct (map_has k0 (players (manager w))); [|now apply IH].
    pose proof (visit_frame socket r r0 k k0 w Hr
                  (Hall k0 r0 (or_introl eq_refl)) Hk) as (Hh & Hi & Hpl & Ho).
    pose proof (visit_env socket r0 w) as (_ & _ & Hsg & Hreg1).
    destruct (visit socket r0 w) as [w1 o]. simpl in *.
    assert (Hall1 : forall k' r', In (k', r') entries ->
              (Player.guild <$> heap w1 !! r') = Some k').
    { intros k' r' Hin'. rewrite Hsg. now apply Hall'. }
    specialize (IH w1 Hnd (Hreg1 Hreg) Hall1 Hin).
    rewrite Hpl, Hh in IH. specialize (IH Hget Hp Hc).
    destruct IH as (IH1 & IH2 & IH3 & IH4). rewrite Hi in IH2.
    destruct (forEach socket entries w1) as [w2 ts]. simpl in *.
    repeat split; try assumption.
    unfold others in *. destruct o as [t|]; simpl; [|exact IH4].
    constructor; [now inversion Ho|exact IH4].
Qed.

End SweepOwn.

(** ** Failover: the timers over a schedule *)

Section Polling.

Import Manager Props.

Lemma run_nil (schedule : list Tick) (w : World) :
  run schedule [] w = (w, []).
Proof. now destruct schedule. Qed.

Lemma run_cons (k : Tick) (schedule : list Tick) (tasks : list Task)
    (w : World) :
  tasks <> [] ->
  run (k :: schedule) tasks w
  = run schedule (snd (fire tasks (advance k w)))
      (fst (fire tasks (advance k w))).
Proof.
  intros Hne. destruct tasks as [|t tasks]; [contradiction|].
  change (run (k :: schedule) (t :: tasks) w)
    with (let '(w1, pending) := fire (t :: tasks) (advance k w) in
          run schedule pending w1).
  now destruct (fire (t :: tasks) (advance k w)).
Qed.

Lemma found_in_manager (m m' : Manager.t) (schedule : list Tick) (a : nat) :
  found_in m schedule a = found_in m' schedule a.
Proof.
  revert a. induction schedule as [|k schedule IH]; intros a; simpl.
  - reflexivity.
  - rewrite (ideal0_sockets (set_sockets (tick_sockets k) m')
               (set_sockets (tick_sockets k) m) eq_refl).
    destruct (ideal0 (set_sockets (tick_sockets k) m')); [reflexivity|].
    apply IH.
Qed.

(** Timers of other players leave the player at [r] and the registry
    alone. *)
Lemma run_frame (r : ref) (schedule : list Tick) (tasks : list Task)
    (w : World) :
  others r tasks ->
  heap (fst (run schedule tasks w)) !! r = heap w !! r
  /\ history r (fst (run schedule tasks w)) = history r w
  /\ players (manager (fst (run schedule tasks w))) = players (manager w)
  /\ others r (snd (run schedule tasks w)).
Proof.
  revert tasks w. induction schedule as [|k schedule IH]; intros tasks w Ho.
  - destruct tasks; simpl; repeat split; assumption.
  - destruct tasks as [|t tasks].
    { simpl. repeat split. exact Ho. }
    rewrite run_cons by discriminate.
    pose proof (fire_frame r (t :: tasks) (advance k w) Ho) as (Hh & Hi).
    pose proof (fire_env (t :: tasks) (advance k w)) as (Hm & _ & _ & Hp).
    assert (Ho' : others r (snd (fire (t :: tasks) (advance k w)))).
    { rewrite Hp. destruct (ideal0 _); [constructor|exact Ho]. }
    specialize (IH _ (fst (fire (t :: tasks) (advance k w))) Ho')
      as (Hh' & Hi' & Hpl' & Ho'').
    rewrite Hh', Hi', Hpl', Hh, Hi, Hm. repeat split. exact Ho''.
Qed.

Variable r : ref.
Variable p : Player.t.
Variable t : Task.
Variables l1 l2 : list Task.
Hypothesis own : task_player t = r.
Hypothesis before : others r l1.
Hypothesis after : others r l2.

(** The timers fire until a connection is found. *)
Lemma run_own (schedule : list Tick) (w : World) (armed n : nat) (time : Z)
    (s : Socket.t) :
  heap w !! r = Some p ->
  found_in (manager w) schedule armed = Some (n, time, s) ->
  exists j,
    n = (armed + j)%nat
    /\ heap (fst (run schedule (l1 ++ t :: l2) w)) !! r
       = Some (Player.set_socket s p)
    /\ history r (fst (run schedule (l1 ++ t :: l2) w))
       = history r w
         ++ repeat (SetTimeout r 1000) j
         ++ relocation r p s
              (task_position t + (time - task_startfind t + 1000))
    /\ players (manager (fst (run schedule (l1 ++ t :: l2) w)))
       = players (manager w)
    /\ others r (snd (run schedule (l1 ++ t :: l2) w)).
Proof.
  revert w armed. induction schedule as [|k schedule IH];
    intros w armed Hp Hfound; [discriminate|].
  rewrite run_cons by (now destruct l1).
  simpl in Hfound.
  pose proof (fire_own r p t l1 l2 (advance k w) own before after Hp) as Hown.
  pose proof (fire_env (l1 ++ t :: l2) (advance k w)) as (Hm & _ & _ & Hpend).
  change (manager (advance k w))
    with (set_sockets (tick_sockets k) (manager w)) in *.
  destruct (ideal0 (set_sockets (tick_sockets k) (manager w))) as [s'|].
  - injection Hfound as <- <- <-. destruct Hown as (Hh & Hi).
    rewrite Hpend, run_nil. simpl. exists O.
    rewrite Hh, Hi, Hm, Nat.add_0_r. repeat split. constructor.
  - destruct Hown as (Hh & Hi). rewrite Hpend.
    rewrite (found_in_manager _
               (manager (fst (fire (l1 ++ t :: l2) (advance k w))))) in Hfound.
    destruct (IH _ _ Hh Hfound) as (j & -> & Hh' & Hi' & Hpl' & Ho').
    exists (S j). rewrite Hh', Hi', Hpl', Hi, Hm.
    split; [lia|]. split; [reflexivity|]. split; [|now split].
    simpl. now rewrite <- List.app_assoc.
Qed.

(** The schedule ends before a connection is found: the task is still
    waiting. *)
Lemma run_waiting (schedule : list Tick) (w : World) (armed : nat) :
  heap w !! r = Some p ->
  found_in (manager w) schedule armed = None ->
  heap (fst (run schedule (l1 ++ t :: l2) w)) !! r = Some p
  /\ history r (fst (run schedule (l1 ++ t :: l2) w))
     = history r w ++ repeat (SetTimeout r 1000) (length schedule)
  /\ players (manager (fst (run schedule (l1 ++ t :: l2) w)))
     = players (manager w)
  /\ snd (run schedule (l1 ++ t :: l2) w) = l1 ++ t :: l2.
Proof.
  revert w armed. induction schedule as [|k schedule IH];
    intros w armed Hp Hfound.
  - assert (Hrun : run [] (l1 ++ t :: l2) w = (w, l1 ++ t :: l2)).
    { now destruct l1. }
    rewrite Hrun. simpl. now rewrite List.app_nil_r.
  - rewrite run_cons by (now destruct l1).
    simpl in Hfound.
    pose proof (fire_own r p t l1 l2 (advance k w) own before after Hp) as Hown.
    pose proof (fire_env (l1 ++ t :: l2) (advance k w)) as (Hm & _ & _ & Hpend).
    change (manager (advance k w))
      with (set_sockets (tick_sockets k) (manager w)) in *.
    destruct (ideal0 (set_sockets (tick_sockets k) (manager w))) as [s'|];
      [discriminate|].
    destruct Hown as (Hh & Hi). rewrite Hpend.
    rewrite (found_in_manager _
               (manager (fst (fire (l1 ++ t :: l2) (advance k w))))) in Hfound.
    destruct (IH _ _ Hh Hfound) as (Hh' & Hi' & Hpl' & Hs').
    rewrite Hh', Hi', Hpl', Hs', Hi, Hm.
    repeat split. simpl. now rewrite <- List.app_assoc.
Qed.

End Polling.

(** ** Failover, from the loss of the connection to the end of the schedule *)

Section Failover.

Import Manager Props.

Lemma failover_run (socket : Socket.t) (schedule : list Tick) (w : World) :
  failover socket schedule w
  = run schedule (snd (fallback socket w)) (fst (fallback socket w)).
Proof. unfold failover. now destruct (fallback socket w). Qed.

Lemma registered_guilds (w : World) :
  registered w ->
  forall k r, In (k, r) (players (manager w)) ->
    (Player.guild <$> heap w !! r) = Some k.
Proof.
  intros [_ Hreg] k r Hin. destruct (Hreg k r Hin) as (p & -> & <-).
  reflexivity.
Qed.

Variable socket : Socket.t.
Variable schedule : list Tick.
Variable w : World.
Variable k : string.
Variable r : ref.
Variable p : Player.t.
Hypothesis in_order : registered w.
Hypothesis entry : In (k, r) (players (manager w)).
Hypothesis at_r : heap w !! r = Some p.
Hypothesis affected : Socket.id (Player.socket p) = Socket.id socket.

(** A player in a channel, and a connection found at [time]. *)
Lemma failover_relocation (n : nat) (time : Z) (s : Socket.t) :
  truthy_str (Player.channel p) = true ->
  found w schedule = Some (n, time, s) ->
  heap (fst (failover socket schedule w)) !! r = Some (Player.set_socket s p)
  /\ history r (fst (failover socket schedule w))
     = history r w
       ++ repeat (SetTimeout r 1000) n
       ++ relocation r p s
            (Z.max (Player.position p) 0 + (time - now w + 1000))
  /\ map_get k (players (manager (fst (failover socket schedule w))))
     = Some r.
Proof.
  intros Hc Hfound. rewrite failover_run. unfold fallback.
  pose proof (forEach_own socket r k p affected (players (manager w)) w
                (proj1 in_order) (registered_guilds w in_order) entry
                (In_map_get k r _ (proj1 in_order) entry) at_r Hc)
    as (Hs & Hn & Hget & Hsweep).
  unfold found in Hfound.
  destruct (forEach socket (players (manager w)) w) as [w1 tasks].
  simpl in *.
  destruct (ideal0 (manager w)) as [s0|].
  - injection Hfound as <- <- <-. destruct Hsweep as (Hh & Hi & Ho).
    pose proof (run_frame r schedule tasks w1 Ho) as (Hh' & Hi' & Hpl' & _).
    rewrite Hh', Hi', Hpl'. now repeat split.
  - destruct Hsweep as (Hh & Hi & l1 & l2 & -> & Ho1 & Ho2).
    rewrite (found_in_manager _ (manager w1)) in Hfound.
    destruct (run_own r p (task_of r p w) l1 l2 eq_refl Ho1 Ho2
                schedule w1 1%nat n time s Hh Hfound)
      as (j & -> & Hh' & Hi' & Hpl' & _).
    rewrite Hh', Hi', Hpl', Hi. repeat split; [|exact Hget].
    simpl. now rewrite <- List.app_assoc.
Qed.

(** A player in a channel, and no connection found within the schedule. *)
Lemma failover_waiting :
  truthy_str (Player.channel p) = true ->
  found w schedule = None ->
  heap (fst (failover socket schedule w)) !! r = Some p
  /\ history r (fst (failover socket schedule w))
     = history r w ++ repeat (SetTimeout r 1000) (S (length schedule))
  /\ In (task_of r p w) (snd (failover socket schedule w)).
Proof.
  intros Hc Hfound. rewrite failover_run. unfold fallback.
  pose proof (forEach_own socket r k p affected (players (manager w)) w
                (proj1 in_order) (registered_guilds w in_order) entry
                (In_map_get k r _ (proj1 in_order) entry) at_r Hc)
    as (Hs & Hn & Hget & Hsweep).
  unfold found in Hfound.
  destruct (forEach socket (players (manager w)) w) as [w1 tasks].
  simpl in *.
  destruct (ideal0 (manager w)) as [s0|]; [discriminate|].
  destruct Hsweep as (Hh & Hi & l1 & l2 & -> & Ho1 & Ho2).
  rewrite (found_in_manager _ (manager w1)) in Hfound.
  destruct (run_waiting r p (task_of r p w) l1 l2 eq_refl Ho1 Ho2
              schedule w1 1%nat Hh Hfound) as (Hh' & Hi' & _ & Hs').
  rewrite Hh', Hi', Hs', Hi. repeat split.
  - simpl. now rewrite <- List.app_assoc.
  - apply in_or_app. right. now left.
Qed.

(** A player in no channel. *)
Lemma failover_stale :
  truthy_str (Player.channel p) = false ->
  heap (fst (failover socket schedule w)) !! r = Some p
  /\ history r (fst (failover socket schedule w)) = history r w
  /\ map_get k (players (manager (fst (failover socket schedule w)))) = None.
Proof.
  intros Hc. rewrite failover_run. unfold fallback.
  pose proof (forEach_stale socket r k p affected (players (manager w)) w
                (proj1 in_order) (proj1 in_order)
                (registered_guilds w in_order) entry
                (In_map_get k r _ (proj1 in_order) entry) at_r Hc)
    as (Hh & Hi & Hget & Ho).
  destruct (forEach socket (players (manager w)) w) as [w1 tasks].
  simpl in *.
  pose proof (run_frame r schedule tasks w1 Ho) as (Hh' & Hi' & Hpl' & _).
  now rewrite Hh', Hi', Hpl'.
Qed.

End Failover.

(** ** What failover does for a player *)

Section FailoverClaims.

Import Manager Props.

Lemma world_of_registered (p : Player.t) (clock : Z) :
  Player.guild p = "g1" -> registered (Samples.world_of p clock).
Proof.
  intros Hg. split.
  - simpl. repeat constructor. intros [].
  - intros k r [[= <- <-]|[]]. exists p. split; [|exact Hg].
    simpl. apply lookup_singleton_eq.
Qed.

Lemma truthy_channel (p : Player.t) (c : string) :
  Player.channel p = Val c -> c <> "" ->
  truthy_str (Player.channel p) = true.
Proof.
  intros -> Hc. simpl. apply negb_true_iff. now apply String.eqb_neq.
Qed.

Lemma relocation_playing (r : ref) (p : Player.t) (s : Socket.t)
    (tr : string) (startTime : Z) :
  Player.track p = Val tr -> tr <> "" ->
  relocation r p s startTime
  = [Send r (Socket.id s) "voiceUpdate"
       (DVoiceUpdate (Player._sessionId p) (Player._server p)) None;
     Send r (Socket.id s) "filters"
       (DFilters (Filters.payload (Player.filters p))) (Some false);
     Send r (Socket.id s) "play" (DPlay tr startTime) None].
Proof.
  intros Htr Hne. unfold relocation. rewrite Htr. simpl.
  apply String.eqb_neq in Hne as ->. reflexivity.
Qed.

Lemma relocation_flags (r : ref) (p : Player.t) (s : Socket.t)
    (startTime : Z) (e : Event) :
  In e (relocation r p s startTime) ->
  (forall d, e <> Teardown r d)
  /\ (forall to op d, e = Send r to op d (Some true) -> False)
  /\ (forall to d flag, e = Send r to "filters" d flag -> flag = Some false).
Proof.
  unfold relocation. intros Hin. apply in_app_or in Hin as [Hin|Hin].
  - destruct Hin as [<-|[<-|[]]]; repeat split; intros; congruence.
  - destruct (Player.track p) as [| |tr]; try destruct Hin.
    destruct (truthy_str (Val tr)); [|destruct Hin].
    destruct Hin as [<-|[]]. repeat split; intros; congruence.
Qed.

Variable socket : Socket.t.
Variable schedule : list Tick.
Variable w : World.
Variable k : string.
Variable r : ref.
Variable p : Player.t.

(** C1, as the code has it: a player whose connection is lost and whose
    channel is a non-empty id (the test of the code is [!p.channel], which
    the empty string fails like null).  The task that polls for a
    connection holds the anchors max(position, 0) and the time of the loss;
    and when the polling finds a connection, at [time], the player's track
    is resumed on it with
    startTime = max(position, 0) + (time - time of the loss) + 1000. *)
Theorem failover_resumes (c tr : string) :
  registered w ->
  In (k, r) (players (manager w)) ->
  heap w !! r = Some p ->
  Socket.id (Player.socket p) = Socket.id socket ->
  Player.channel p = Val c -> c <> "" ->
  (found w schedule = None ->
   In {| task_player := r;
         task_position := Z.max (Player.position p) 0;
         task_startfind := now w |}
      (snd (failover socket schedule w)))
  /\ (forall n time s,
        found w schedule = Some (n, time, s) ->
        Player.track p = Val tr -> tr <> "" ->
        history r (fst (failover socket schedule w))
        = history r w
          ++ repeat (SetTimeout r 1000) n
          ++ [Send r (Socket.id s) "voiceUpdate"
                (DVoiceUpdate (Player._sessionId p) (Player._server p)) None;
              Send r (Socket.id s) "filters"
                (DFilters (Filters.payload (Player.filters p))) (Some false);
              Send r (Socket.id s) "play"
                (DPlay tr (Z.max (Player.position p) 0
                           + (time - now w) + 1000)) None]).
Proof.
  intros Hreg Hin Hp Hid Hc Hne.
  pose proof (truthy_channel p c Hc Hne) as Htruthy. split.
  - intros Hfound.
    now destruct (failover_waiting socket schedule w k r p Hreg Hin Hp Hid
                    Htruthy Hfound) as (_ & _ & Htask).
  - intros n time s Hfound Htr Htrne.
    destruct (failover_relocation socket schedule w k r p Hreg Hin Hp Hid
                n time s Htruthy Hfound) as (_ & -> & _).
    rewrite (relocation_playing r p s tr _ Htr Htrne).
    now replace (Z.max (Player.position p) 0 + (time - now w + 1000))
      with (Z.max (Player.position p) 0 + (time - now w) + 1000) by lia.
Qed.

(** C5, as the code has it: a player in no channel whose connection is
    lost is taken out of the registry; nothing is sent for it or done to
    it, a teardown included, and it is not moved to another connection. *)
Theorem failover_removes_stale :
  registered w ->
  In (k, r) (players (manager w)) ->
  heap w !! r = Some p ->
  Socket.id (Player.socket p) = Socket.id socket ->
  truthy_str (Player.channel p) = false ->
  map_get k (players (manager (fst (failover socket schedule w)))) = None
  /\ history r (fst (failover socket schedule w)) = history r w
  /\ heap (fst (failover socket schedule w)) !! r = Some p.
Proof.
  intros Hreg Hin Hp Hid Hc.
  destruct (failover_stale socket schedule w k r p Hreg Hin Hp Hid Hc)
    as (Hh & Hi & Hget).
  now repeat split.
Qed.

(** C6, as the code has it: a player in a channel is moved to the
    connection that is found, whatever handshake halves it holds; the voice
    update goes to the new connection with the two halves as they are,
    absent ones included, and the player is neither torn down nor taken
    out of the registry. *)
Theorem failover_resends_voice_update (c : string) (n : nat) (time : Z)
    (s : Socket.t) :
  registered w ->
  In (k, r) (players (manager w)) ->
  heap w !! r = Some p ->
  Socket.id (Player.socket p) = Socket.id socket ->
  Player.channel p = Val c -> c <> "" ->
  found w schedule = Some (n, time, s) ->
  (exists sent,
      history r (fst (failover socket schedule w)) = history r w ++ sent
      /\ In (Send r (Socket.id s) "voiceUpdate"
               (DVoiceUpdate (Player._sessionId p) (Player._server p)) None)
            sent
      /\ forall d, ~ In (Teardown r d) sent)
  /\ heap (fst (failover socket schedule w)) !! r
     = Some (Player.set_socket s p)
  /\ map_get k (players (manager (fst (failover socket schedule w))))
     = Some r.
Proof.
  intros Hreg Hin Hp Hid Hc Hne Hfound.
  pose proof (truthy_channel p c Hc Hne) as Htruthy.
  destruct (failover_relocation socket schedule w k r p Hreg Hin Hp Hid
              n time s Htruthy Hfound) as (Hh & Hi & Hget).
  split; [|now split].
  eexists. split; [exact Hi|]. split.
  - apply in_or_app. right. unfold relocation. apply in_or_app. left.
    now left.
  - intros d Hd. apply in_app_or in Hd as [Hd|Hd].
    + apply repeat_spec in Hd. discriminate.
    + now apply (proj1 (relocation_flags _ _ _ _ _ Hd) d).
Qed.

(** C9, as the code has it: during a failover the filters of the player
    are sent to the new connection with the prioritized flag false, and no
    message of the relocation is sent with the flag set. *)
Theorem failover_filters_not_prioritized (c : string) (n : nat) (time : Z)
    (s : Socket.t) :
  registered w ->
  In (k, r) (players (manager w)) ->
  heap w !! r = Some p ->
  Socket.id (Player.socket p) = Socket.id socket ->
  Player.channel p = Val c -> c <> "" ->
  found w schedule = Some (n, time, s) ->
  exists sent,
    history r (fst (failover socket schedule w)) = history r w ++ sent
    /\ In (Send r (Socket.id s) "filters"
             (DFilters (Filters.payload (Player.filters p))) (Some false))
          sent
    /\ (forall to d flag,
          In (Send r to "filters" d flag) sent -> flag = Some false)
    /\ (forall to op d, ~ In (Send r to op d (Some true)) sent).
Proof.
  intros Hreg Hin Hp Hid Hc Hne Hfound.
  pose proof (truthy_channel p c Hc Hne) as Htruthy.
  destruct (failover_relocation socket schedule w k r p Hreg Hin Hp Hid
              n time s Htruthy Hfound) as (_ & Hi & _).
  eexists. split; [exact Hi|]. repeat split.
  - apply in_or_app. right. unfold relocation. apply in_or_app. left.
    right. now left.
  - intros to d flag Hd. apply in_app_or in Hd as [Hd|Hd].
    + apply repeat_spec in Hd. discriminate.
    + now apply (proj2 (proj2 (relocation_flags _ _ _ _ _ Hd)) to d).
  - intros to op d Hd. apply in_app_or in Hd as [Hd|Hd].
    + apply repeat_spec in Hd. discriminate.
    + now apply (proj1 (proj2 (relocation_flags _ _ _ _ _ Hd)) to op d).
Qed.

End FailoverClaims.

(** ** The failover scenario *)

Section Scenario.

Import Manager Props Samples.

(** X is lost at 100000; Y is still down at 101000 and up at 102500. *)
Lemma failover_resumes_witness :
  history O
    (fst (failover socket_X [still_down 101000; Y_up 102500]
            (world_of player_P 100000)))
  = history O (world_of player_P 100000)
    ++ repeat (SetTimeout O 1000) 2
    ++ [Send O "Y" "voiceUpdate"
          (DVoiceUpdate (Player._sessionId player_P)
             (Player._server player_P)) None;
        Send O "Y" "filters"
          (DFilters (Filters.payload (Player.filters player_P)))
          (Some false);
        Send O "Y" "play" (DPlay "T" (Z.max 42000 0 + (102500 - 100000) + 1000))
          None].
Proof.
  apply (proj2 (failover_resumes socket_X [still_down 101000; Y_up 102500]
                  (world_of player_P 100000) "g1" O player_P "c1" "T"
                  (world_of_registered player_P 100000 eq_refl)
                  (or_introl eq_refl) eq_refl eq_refl eq_refl
                  ltac:(discriminate))
           2%nat 102500 socket_Y);
    [reflexivity|reflexivity|discriminate].
Defined.

Lemma failover_removes_stale_witness :
  map_get "g1"
    (players (manager (fst (failover socket_X [Y_up 101000]
                              (world_of player_stale 100000)))))
  = None
  /\ history O (fst (failover socket_X [Y_up 101000]
                       (world_of player_stale 100000)))
     = history O (world_of player_stale 100000)
  /\ heap (fst (failover socket_X [Y_up 101000]
                  (world_of player_stale 100000))) !! O
     = Some player_stale.
Proof.
  apply (failover_removes_stale socket_X [Y_up 101000]
           (world_of player_stale 100000) "g1" O player_stale
           (world_of_registered player_stale 100000 eq_refl)
           (or_introl eq_refl) eq_refl eq_refl eq_refl).
Defined.

(** C5 as stated fails: the stale player goes from the registry and
    nothing is torn down, where [destroy] tears the player down. *)
Lemma failover_stale_not_torn_down :
  trace (fst (failover socket_X [Y_up 101000] (world_of player_stale 100000)))
  = []
  /\ trace (snd (destroy (GuildId "g1") (world_of player_stale 100000)))
     = [Teardown O true].
Proof. split; vm_compute; reflexivity. Qed.

Lemma failover_resends_voice_update_witness :
  (exists sent,
      history O (fst (failover socket_X [Y_up 101000]
                        (world_of player_detached 100000)))
      = history O (world_of player_detached 100000) ++ sent
      /\ In (Send O "Y" "voiceUpdate" (DVoiceUpdate Undefined Undefined) None)
            sent
      /\ forall d, ~ In (Teardown O d) sent)
  /\ heap (fst (failover socket_X [Y_up 101000]
                  (world_of player_detached 100000))) !! O
     = Some (Player.set_socket socket_Y player_detached)
  /\ map_get "g1"
       (players (manager (fst (failover socket_X [Y_up 101000]
                                 (world_of player_detached 100000)))))
     = Some O.
Proof.
  apply (failover_resends_voice_update socket_X [Y_up 101000]
           (world_of player_detached 100000) "g1" O player_detached
           "c1" 1%nat 101000 socket_Y
           (world_of_registered player_detached 100000 eq_refl)
           (or_introl eq_refl) eq_refl eq_refl eq_refl
           ltac:(discriminate) eq_refl).
Defined.

(** C6 as stated fails: a player that holds neither handshake half is
    moved to Y, a voice update without the halves is sent there, and the
    player stays in the registry. *)
Lemma failover_relocates_detached :
  trace (fst (failover socket_X [Y_up 101000]
                (world_of player_detached 100000)))
  = [SetTimeout O 1000;
     Send O "Y" "voiceUpdate" (DVoiceUpdate Undefined Undefined) None;
     Send O "Y" "filters"
       (DFilters [("volume", Filters.EVolume num_one);
                  ("equalizer", Filters.EEqualizer [])]) (Some false);
     Send O "Y" "play" (DPlay "T" 44000) None]
  /\ (Player.socket
        <$> heap (fst (failover socket_X [Y_up 101000]
                         (world_of player_detached 100000))) !! O)
     = Some socket_Y
  /\ map_get "g1"
       (players (manager (fst (failover socket_X [Y_up 101000]
                                 (world_of player_detached 100000)))))
     = Some O.
Proof. repeat split; vm_compute; reflexivity. Qed.

Lemma failover_filters_not_prioritized_witness :
  exists sent,
    history O (fst (failover socket_X [Y_up 101000]
                      (world_of player_P 100000)))
    = history O (world_of player_P 100000) ++ sent
    /\ In (Send O "Y" "filters"
             (DFilters (Filters.payload (Player.filters player_P)))
             (Some false))
          sent
    /\ (forall to d flag,
          In (Send O to "filters" d flag) sent -> flag = Some false)
    /\ (forall to op d, ~ In (Send O to op d (Some true)) sent).
Proof.
  apply (failover_filters_not_prioritized socket_X [Y_up 101000]
           (world_of player_P 100000) "g1" O player_P
           "c1" 1%nat 101000 socket_Y
           (world_of_registered player_P 100000 eq_refl)
           (or_introl eq_refl) eq_refl eq_refl eq_refl
           ltac:(discriminate) eq_refl).
Defined.

(** C9 as stated fails: the one filters message of the failover carries
    the flag false. *)
Lemma failover_filters_flag_false :
  trace (fst (failover socket_X [Y_up 101000] (world_of player_P 100000)))
  = [SetTimeout O 1000;
     Send O "Y" "voiceUpdate"
       (DVoiceUpdate (Val "s1")
          (Val {| vs_token := "t"; vs_guild_id := "g1";
                  vs_endpoint := "e" |})) None;
     Send O "Y" "filters"
       (DFilters [("volume", Filters.EVolume num_one);
                  ("equalizer", Filters.EEqualizer [])]) (Some false);
     Send O "Y" "play" (DPlay "T" 44000) None].
Proof. vm_compute. reflexivity. Qed.

End Scenario.

(** ** The registry stays in order *)

Section Invariant.

Import Manager Props.

Lemma set_prop_new {V} (k : string) (v : V) (m : object V) :
  get_prop k m = None -> set_prop k v m = m ++ [(k, v)].
Proof.
  induction m as [|[k' v'] m IH]; simpl; [reflexivity|].
  destruct (String.eqb k k'); [discriminate|]. intros H. now rewrite IH.
Qed.

Lemma map_get_None_notin {V} (k : string) (m : Map V) :
  map_get k m = None -> ~ In k (map fst m).
Proof.
  unfold map_get.
  induction m as [|[k' v'] m IH]; simpl; [tauto|].
  destruct (String.eqb_spec k k') as [->|E]; [discriminate|].
  intros H [Heq|Hin]; [congruence|now apply IH].
Qed.

Lemma NoDup_snoc {A} (l : list A) (a : A) :
  List.NoDup l -> ~ In a l -> List.NoDup (l ++ [a]).
Proof.
  induction l as [|x l IH]; simpl; intros Hnd Hin.
  - constructor; [intros []|constructor].
  - apply List.NoDup_cons_iff in Hnd as [Hx Hnd]. constructor.
    + intros H. apply in_app_or in H as [H|[<-|[]]]; [now apply Hx|].
      apply Hin. now left.
    + apply IH; [exact Hnd|]. intros H. apply Hin. now right.
Qed.

Lemma constructed_well_formed (defaults options : Options.t)
    (nodes : list Socket.SocketData) (m : Manager.t) (clock : Z) :
  result (constructor defaults nodes options) = Return m ->
  well_formed (world_at m clock).
Proof.
  unfold constructor.
  destruct (Options.send_rejected _); [discriminate|].
  destruct (Options.shards_rejected _); [discriminate|].
  simpl. intros [= <-]. split; [split|]; simpl.
  - constructor.
  - intros k r [].
  - intros r _. apply lookup_empty.
Qed.

Lemma create_well_formed (guild : Guild) (socket : option Socket.t)
    (w : World) :
  well_formed w -> well_formed (snd (create guild socket w)).
Proof.
  intros [[Hnd Hreg] Hfresh]. unfold create.
  destruct (map_get (guild_key guild) (players (manager w))) as [r|] eqn:Hget;
    [now repeat split|].
  destruct (match socket with Some s => Some s | None => ideal0 (manager w) end)
    as [s|]; [|now repeat split].
  assert (Hset : map_set (guild_key guild) (next w) (players (manager w))
                 = players (manager w) ++ [(guild_key guild, next w)]).
  { apply set_prop_new. exact Hget. }
  split; [split|]; unfold alloc, with_manager;
    cbn [snd manager players set_players heap next]; rewrite ?Hset.
  - rewrite map_app. simpl. apply NoDup_snoc; [exact Hnd|].
    now apply map_get_None_notin.
  - intros k r Hin. apply in_app_or in Hin as [Hin|[[= <- <-]|[]]].
    + destruct (Hreg k r Hin) as (p & Hp & Hg). exists p. split; [|exact Hg].
      rewrite lookup_insert_ne; [exact Hp|].
      intros <-. rewrite Hfresh in Hp by lia. discriminate.
    + eexists. split; [apply lookup_insert_eq|reflexivity].
  - unfold fresh_next. simpl. intros r Hr.
    rewrite lookup_insert_ne by lia. apply Hfresh. lia.
Qed.

Lemma destroy_well_formed (guild : Guild) (w : World) :
  well_formed w -> well_formed (snd (destroy guild w)).
Proof.
  intros [[Hnd Hreg] Hfresh]. unfold destroy.
  destruct (map_get (guild_key guild) (players (manager w))) as [r|];
    [|now repeat split].
  simpl. split; [split|]; simpl.
  - now apply map_delete_NoDup.
  - intros k r' Hin. apply Hreg. now apply map_delete_incl in Hin.
  - exact Hfresh.
Qed.

(** A write that keeps the guild of the player keeps the invariant. *)
Lemma write_well_formed (r : ref) (f : Player.t -> Player.t) (w : World) :
  (forall p, Player.guild (f p) = Player.guild p) ->
  well_formed w -> well_formed (write r f w).
Proof.
  intros Hf [[Hnd Hreg] Hfresh]. split; [split|]; simpl.
  - exact Hnd.
  - intros k r' Hin. destruct (Hreg k r' Hin) as (p & Hp & Hg).
    destruct (decide (r = r')) as [<-|Hne].
    + exists (f p). rewrite lookup_alter_eq, Hp. split; [reflexivity|].
      now rewrite Hf.
    + exists p. now rewrite lookup_alter_ne.
  - unfold fresh_next. simpl. intros r' Hr.
    destruct (decide (r = r')) as [<-|Hne].
    + rewrite lookup_alter_eq, Hfresh by exact Hr. reflexivity.
    + rewrite lookup_alter_ne by exact Hne. now apply Hfresh.
Qed.


Lemma Player_send_well_formed r op data prioritize w :
  well_formed w -> well_formed (Player_send r op data prioritize w).
Proof. unfold Player_send. now destruct (heap w !! r). Qed.

Lemma handleVoiceUpdate_well_formed (r : ref) (u : VoiceUpdate) (w : World) :
  well_formed w -> well_formed (Player_handleVoiceUpdate r u w).
Proof.
  intros Hw. unfold Player_handleVoiceUpdate.
  assert (Hw1 : well_formed
            match u with
            | ServerUpdate s => write r (Player.set_server (Val s)) w
            | StateUpdate s =>
                write r (Player.set_sessionId (Val (session_id s))) w
            end).
  { destruct u; now apply write_well_formed. }
  destruct (heap _ !! r) as [p|]; [|exact Hw1].
  destruct (Player._sessionId p), (Player._server p); try exact Hw1.
  now apply Player_send_well_formed.
Qed.

Lemma stateUpdate_well_formed (update : DiscordVoiceState) (w : World) :
  well_formed w -> well_formed (stateUpdate update w).
Proof.
  intros Hw. unfold stateUpdate.
  destruct (map_get _ _) as [r|]; [|exact Hw].
  destruct (own_user update (manager w)); [|exact Hw].
  destruct (heap w !! r) as [p|]; [|exact Hw].
  apply handleVoiceUpdate_well_formed.
  destruct (negb _); [|exact Hw].
  now apply write_well_formed.
Qed.

Lemma serverUpdate_well_formed (update : DiscordVoiceServer) (w : World) :
  well_formed w -> well_formed (serverUpdate update w).
Proof.
  intros Hw. unfold serverUpdate.
  destruct (map_get _ _) as [r|]; [|exact Hw].
  now apply handleVoiceUpdate_well_formed.
Qed.

End Invariant.

(** ** The order of the registry of sockets *)

Section ConfigurationOrder.

Import Manager.

Lemma map_has_false {V} (k : string) (m : Map V) :
  map_has k m = false -> get_prop k m = None.
Proof. unfold map_has, has_key. now destruct (get_prop k m). Qed.

(** [init] registers the sockets in the order of the configuration: the new
    keys of the registry are taken from the node ids in their order. *)
Lemma connect_all_order (connect_throws : string -> bool)
    (nodes : list Socket.SocketData) (w : World) :
  exists added,
    map fst (sockets (manager (connect_all connect_throws nodes w)))
    = map fst (sockets (manager w)) ++ added
    /\ sublist added (map Socket.data_id nodes).
Proof.
  revert w. induction nodes as [|s nodes IH]; intros w; simpl.
  - exists []. split; [now rewrite List.app_nil_r|constructor].
  - destruct (map_has (Socket.data_id s) (sockets (manager w))) eqn:Hhas.
    + destruct (IH w) as (added & -> & Hsub).
      exists added. split; [reflexivity|now apply sublist_cons].
    + destruct (connect_throws (Socket.data_id s)).
      * destruct (IH (log (SocketError (Socket.data_id s)) w))
          as (added & -> & Hsub).
        exists added. split; [reflexivity|now apply sublist_cons].
      * match goal with
        | |- context [connect_all _ _ ?w1] =>
            destruct (IH w1) as (added & -> & Hsub)
        end.
        exists (Socket.data_id s :: added). split; [|now apply sublist_skip].
        simpl. unfold map_set.
        rewrite (set_prop_new _ _ _ (map_has_false _ _ Hhas)), map_app.
        simpl. now rewrite <- List.app_assoc.
Qed.

Lemma init_order (connect_throws : string -> bool) (user : option string)
    (w : World) :
  sockets (manager w) = [] ->
  sublist (map fst (sockets (manager (snd (init connect_throws user w)))))
    (map Socket.data_id (nodes (manager w))).
Proof.
  intros Hempty. unfold init.
  assert (Hlog : forall l w0,
            manager (fold_left (fun w p => log (PluginInit p) w) l w0)
            = manager w0).
  { induction l as [|x l IHl]; intros w0; simpl; [reflexivity|].
    now rewrite IHl. }
  destruct (match user with Some u => Some u | None => userId (manager w) end)
    as [u|]; simpl; [|rewrite Hempty; apply sublist_nil_l].
  destruct (String.eqb u ""); simpl; [rewrite Hempty; apply sublist_nil_l|].
  match goal with
  | |- context [connect_all _ ?ns ?w1] =>
      destruct (connect_all_order connect_throws ns w1) as (added & -> & Hsub)
  end.
  rewrite Hlog in *. simpl in *. now rewrite Hempty.
Qed.

End ConfigurationOrder.

(** ** The registry stays in order through a failover *)

Section FailoverInvariant.

Import Manager Props.

Lemma registered_shrink (w w' : World) :
  registered w ->
  same_guilds w w' ->
  List.NoDup (map fst (players (manager w'))) ->
  (forall e, In e (players (manager w')) -> In e (players (manager w))) ->
  registered w'.
Proof.
  intros [_ Hreg] Hsg Hnd Hincl. split; [exact Hnd|].
  intros k r Hin. destruct (Hreg k r (Hincl _ Hin)) as (p & Hp & Hg).
  specialize (Hsg r). rewrite Hp in Hsg. simpl in Hsg.
  destruct (heap w' !! r) as [p'|]; [|discriminate].
  exists p'. split; [reflexivity|]. injection Hsg as Hsg. congruence.
Qed.

Lemma visit_incl (socket : Socket.t) (r : ref) (w : World) (e : string * ref) :
  In e (players (manager (fst (visit socket r w)))) ->
  In e (players (manager w)).
Proof.
  unfold visit. destruct (heap w !! r) as [p|]; [|tauto].
  destruct (String.eqb _ _); [|tauto].
  destruct (negb _).
  - simpl. apply map_delete_incl.
  - match goal with
    | |- context [find_socket ?t w] =>
        pose proof (find_socket_env t w) as (Hm & _);
        destruct (find_socket t w) as [w1 o]
    end.
    simpl in *. now rewrite Hm.
Qed.

Lemma forEach_env (socket : Socket.t) (entries : list (string * ref))
    (w : World) :
  same_guilds w (fst (forEach socket entries w))
  /\ (List.NoDup (map fst (players (manager w))) ->
      List.NoDup (map fst (players (manager (fst (forEach socket entries w))))))
  /\ (forall e, In e (players (manager (fst (forEach socket entries w)))) ->
                In e (players (manager w))).
Proof.
  revert w. induction entries as [|[k r] entries IH]; intros w; simpl.
  - split; [apply same_guilds_refl|]. split; tauto.
  - destruct (map_has k (players (manager w))); [|apply IH].
    pose proof (visit_env socket r w) as (_ & _ & Hsg & Hnd).
    pose proof (visit_incl socket r w) as Hincl.
    destruct (visit socket r w) as [w1 o]. simpl in *.
    specialize (IH w1) as (Hsg' & Hnd' & Hincl').
    destruct (forEach socket entries w1) as [w2 ts]. simpl in *.
    split; [eapply same_guilds_trans; eassumption|]. split.
    + intros H. apply Hnd', Hnd, H.
    + intros e H. apply Hincl, Hincl', H.
Qed.

Lemma run_env (schedule : list Tick) (tasks : list Task) (w : World) :
  same_guilds w (fst (run schedule tasks w))
  /\ players (manager (fst (run schedule tasks w))) = players (manager w).
Proof.
  revert tasks w. induction schedule as [|k schedule IH]; intros tasks w.
  - destruct tasks; simpl; split; solve [reflexivity | apply same_guilds_refl].
  - destruct tasks as [|t tasks];
      [simpl; split; solve [reflexivity | apply same_guilds_refl]|].
    rewrite run_cons by discriminate.
    pose proof (fire_env (t :: tasks) (advance k w)) as (Hm & _ & Hsg & _).
    specialize (IH (snd (fire (t :: tasks) (advance k w)))
                  (fst (fire (t :: tasks) (advance k w)))) as (Hsg' & Hpl').
    split.
    + eapply same_guilds_trans; [|exact Hsg']. exact Hsg.
    + now rewrite Hpl', Hm.
Qed.

(** A failover leaves the registry in order. *)
Lemma failover_registered (socket : Socket.t) (schedule : list Tick)
    (w : World) :
  registered w -> registered (fst (failover socket schedule w)).
Proof.
  intros Hreg. rewrite failover_run. unfold fallback.
  pose proof (forEach_env socket (players (manager w)) w) as (Hsg & Hnd & Hincl).
  destruct (forEach socket (players (manager w)) w) as [w1 tasks]. simpl in *.
  pose proof (run_env schedule tasks w1) as (Hsg' & Hpl').
  apply (registered_shrink w).
  - exact Hreg.
  - eapply same_guilds_trans; eassumption.
  - rewrite Hpl'. apply Hnd, Hreg.
  - intros e. rewrite Hpl'. apply Hincl.
Qed.

End FailoverInvariant.

(** * Further properties of the code *)

(** ** More on the filter payload *)

Section PayloadContents.

Import Filters.

Lemma payload_get (f : t) :
  get_prop "volume" (payload f) = Some (EVolume (volume f))
  /\ get_prop "equalizer" (payload f) = Some (EEqualizer (equalizer f))
  /\ get_prop "timescale" (payload f)
     = (if isTimescaleEnabled f then Some (EConfig (timescale f)) else None)
  /\ get_prop "karaoke" (payload f)
     = (if isKaraokeEnabled f then Some (EConfig (karaoke f)) else None)
  /\ get_prop "tremolo" (payload f)
     = (if isTremoloEnabled f then Some (EConfig (tremolo f)) else None)
  /\ get_prop "rotation" (payload f)
     = (if isRotationEnabled f then Some (EConfig (rotation f)) else None)
  /\ get_prop "distortion" (payload f)
     = (if isDistortionEnabled f then Some (EConfig (distortion f)) else None).
Proof.
  unfold payload, assign_if.
  destruct (isTimescaleEnabled f), (isKaraokeEnabled f),
    (isTremoloEnabled f), (isRotationEnabled f), (isDistortionEnabled f);
    repeat split; reflexivity.
Qed.

(** X1: what the payload holds under a key is what the filter state holds at
    that moment: the volume and the bands as they are, and under each other
    key the configuration object of the state, which is then not null. *)
Theorem payload_values (f : t) :
  get_prop "volume" (payload f) = Some (EVolume (volume f))
  /\ get_prop "equalizer" (payload f) = Some (EEqualizer (equalizer f))
  /\ (forall e, get_prop "timescale" (payload f) = Some e ->
        exists o, timescale f = Val o /\ e = EConfig (Val o))
  /\ (forall e, get_prop "karaoke" (payload f) = Some e ->
        exists o, karaoke f = Val o /\ e = EConfig (Val o))
  /\ (forall e, get_prop "tremolo" (payload f) = Some e ->
        exists o, tremolo f = Val o /\ e = EConfig (Val o))
  /\ (forall e, get_prop "rotation" (payload f) = Some e ->
        exists o, rotation f = Val o /\ e = EConfig (Val o))
  /\ (forall e, get_prop "distortion" (payload f) = Some e ->
        exists o, distortion f = Val o /\ e = EConfig (Val o)).
Proof.
  destruct (payload_get f) as (Hv & He & Hts & Hk & Htr & Hr & Hd).
  rewrite Hts, Hk, Htr, Hr, Hd.
  split; [exact Hv|]. split; [exact He|].
  unfold isTimescaleEnabled, isKaraokeEnabled, isTremoloEnabled,
    isRotationEnabled, isDistortionEnabled, truthy_obj.
  repeat split; intros e;
    match goal with
    | |- context [match ?slot with _ => _ end] => destruct slot as [| |o]
    end; try discriminate;
    match goal with
    | |- (if ?b then _ else _) = _ -> _ => destruct b
    | _ => idtac
    end; try discriminate;
    intros [= <-]; exists o; split; reflexivity.
Qed.

Lemma payload_values_witness :
  exists o,
    tremolo Samples.tremolo_on = Val o
    /\ EConfig (Val DEFAULT_TREMOLO) = EConfig (Val o).
Proof.
  apply (proj1 (proj2 (proj2 (proj2 (proj2 (payload_values Samples.tremolo_on)))))
           (EConfig (Val DEFAULT_TREMOLO))).
  reflexivity.
Defined.

(** X2: the keys of the payload come in the order volume, equalizer,
    timescale, karaoke, tremolo, rotation, distortion, each at most once,
    and there is no other key. *)
Theorem payload_key_order (f : t) :
  sublist (map fst (payload f))
    ["volume"; "equalizer"; "timescale"; "karaoke"; "tremolo"; "rotation";
     "distortion"]
  /\ exists rest, map fst (payload f) = "volume" :: "equalizer" :: rest.
Proof.
  unfold payload, assign_if.
  destruct (isTimescaleEnabled f), (isKaraokeEnabled f),
    (isTremoloEnabled f), (isRotationEnabled f), (isDistortionEnabled f);
    (split;
     [simpl;
      repeat first [apply sublist_nil | apply sublist_skip | apply sublist_cons]
     |eexists; reflexivity]).
Qed.

(** X3: the edges of the enabled tests.  A tremolo object without a depth
    and a rotation object without a rotationHz count as enabled, since
    undefined differs from 0; a timescale or a distortion object without any
    property is left out of the payload; a depth that is not a number is
    enabled and a depth of minus zero is not. *)
Theorem payload_edges (f : t) (o : object value) :
  (tremolo f = Val o -> get_prop "depth" o = None ->
   has_key "tremolo" (payload f) = true)
  /\ (rotation f = Val o -> get_prop "rotationHz" o = None ->
      has_key "rotation" (payload f) = true)
  /\ (timescale f = Val [] -> has_key "timescale" (payload f) = false)
  /\ (distortion f = Val [] -> has_key "distortion" (payload f) = false)
  /\ (tremolo f = Val o -> get_prop "depth" o = Some (VNumber S754_nan) ->
      has_key "tremolo" (payload f) = true)
  /\ (tremolo f = Val o ->
      get_prop "depth" o = Some (VNumber (S754_zero true)) ->
      has_key "tremolo" (payload f) = false).
Proof.
  destruct (payload_has_key f) as (_ & _ & Hts & _ & Htr & Hr & Hd).
  rewrite Hts, Htr, Hr, Hd.
  unfold isTimescaleEnabled, isTremoloEnabled, isRotationEnabled,
    isDistortionEnabled, read.
  repeat split; intros H; rewrite H; try reflexivity;
    intros H'; rewrite H'; reflexivity.
Qed.

Lemma payload_edges_witness :
  has_key "tremolo" (payload MoreSamples.odd_filters) = true
  /\ has_key "timescale" (payload MoreSamples.odd_filters) = false.
Proof.
  split.
  - apply (proj1 (payload_edges MoreSamples.odd_filters
                    [("frequency", VNumber num_two)])); reflexivity.
  - apply (proj1 (proj2 (proj2 (payload_edges MoreSamples.odd_filters [])))).
    reflexivity.
Defined.

End PayloadContents.

(** ** The whole of [ideal] *)

Section IdealArray.

Import Manager Props MoreProps.

Lemma insert_by_perm {A} (cmp : A -> A -> Z) (x : A) (l : list A) :
  Permutation (insert_by cmp x l) (x :: l).
Proof.
  induction l as [|y ys IH]; simpl; [reflexivity|].
  destruct (cmp x y <=? 0); [reflexivity|].
  rewrite IH. apply perm_swap.
Qed.

Lemma sort_perm {A} (cmp : A -> A -> Z) (l : list A) :
  Permutation (sort cmp l) l.
Proof.
  induction l as [|x l IH]; simpl; [reflexivity|].
  rewrite insert_by_perm. now constructor.
Qed.

Lemma insert_by_sorted (x : Socket.t) (l : list Socket.t) :
  Sorted penalty_le l -> Sorted penalty_le (insert_by by_penalties x l).
Proof.
  unfold penalty_le, by_penalties.
  induction l as [|y ys IH]; simpl; intros Hs.
  - repeat constructor.
  - destruct (Z.leb_spec (Socket.penalties x - Socket.penalties y) 0) as [H|H].
    + constructor; [exact Hs|]. constructor. lia.
    + apply Sorted_inv in Hs as [Hs Hhd]. constructor; [now apply IH|].
      destruct ys as [|z zs]; simpl.
      * constructor. lia.
      * destruct (Socket.penalties x - Socket.penalties z <=? 0);
          constructor; [lia|]. now apply HdRel_inv in Hhd.
Qed.

Lemma sort_sorted (l : list Socket.t) :
  Sorted penalty_le (sort by_penalties l).
Proof.
  induction l as [|x l IH]; simpl; [constructor|]. now apply insert_by_sorted.
Qed.

(** Insertion keeps the sockets of one penalty in the order they had. *)
Lemma insert_by_stable (p : Z) (x : Socket.t) (l : list Socket.t) :
  List.filter (fun s => Socket.penalties s =? p) (insert_by by_penalties x l)
  = List.filter (fun s => Socket.penalties s =? p) (x :: l).
Proof.
  unfold by_penalties.
  induction l as [|y ys IH]; simpl; [reflexivity|].
  destruct (Z.leb_spec (Socket.penalties x - Socket.penalties y) 0) as [H|H];
    [reflexivity|].
  simpl. rewrite IH. simpl.
  destruct (Z.eqb_spec (Socket.penalties y) p) as [Ey|Ey]; [|reflexivity].
  destruct (Z.eqb_spec (Socket.penalties x) p) as [Ex|Ex]; [lia|reflexivity].
Qed.

Lemma sort_stable (p : Z) (l : list Socket.t) :
  List.filter (fun s => Socket.penalties s =? p) (sort by_penalties l)
  = List.filter (fun s => Socket.penalties s =? p) l.
Proof.
  induction l as [|x l IH]; simpl; [reflexivity|].
  rewrite insert_by_stable. simpl. now rewrite IH.
Qed.

(** X4: [ideal] is the array of the connected sockets of the registry, each
    as often as it is there and no other, in the order of their penalties;
    sockets of one penalty keep the order of the registry. *)
Theorem ideal_sorted_connected (m : Manager.t) :
  Permutation (ideal m) (List.filter connected (map_values (sockets m)))
  /\ StronglySorted penalty_le (ideal m)
  /\ (forall s, In s (ideal m)
                <-> In s (map_values (sockets m))
                    /\ Socket.status s = Socket.CONNECTED)
  /\ (forall p,
        List.filter (fun s => Socket.penalties s =? p) (ideal m)
        = List.filter (fun s => Socket.penalties s =? p)
            (List.filter connected (map_values (sockets m)))).
Proof.
  unfold ideal. fold connected.
  assert (Hperm : Permutation
            (sort by_penalties (List.filter connected (map_values (sockets m))))
            (List.filter connected (map_values (sockets m)))).
  { apply sort_perm. }
  split; [exact Hperm|]. split; [|split].
  - apply Sorted_StronglySorted; [|apply sort_sorted].
    intros a b c. unfold penalty_le. lia.
  - intros s. split.
    + intros Hin. apply (Permutation_in _ Hperm) in Hin.
      apply filter_In in Hin as [Hin Hc]. split; [exact Hin|].
      now apply Z.eqb_eq in Hc.
    + intros [Hin Hc]. apply (Permutation_in _ (Permutation_sym Hperm)).
      apply filter_In. split; [exact Hin|]. now apply Z.eqb_eq.
  - intros p. apply sort_stable.
Qed.

End IdealArray.

(** ** init and use *)

Section Init.

Import Manager Props MoreProps Plugins.

Lemma map_has_set {V} (k k' : string) (v : V) (m : Map V) :
  map_has k (map_set k' v m) = String.eqb k k' || map_has k m.
Proof.
  unfold map_has, map_set, has_key.
  induction m as [|[k2 v2] m IH]; simpl.
  - destruct (String.eqb k k'); reflexivity.
  - destruct (String.eqb_spec k' k2) as [->|E]; simpl.
    + destruct (String.eqb k k2); reflexivity.
    + destruct (String.eqb_spec k k2) as [->|E2].
      * now rewrite orb_true_r.
      * exact IH.
Qed.

Lemma map_get_set_other {V} (k k' : string) (v : V) (m : Map V) :
  k <> k' -> map_get k (map_set k' v m) = map_get k m.
Proof.
  unfold map_get, map_set. intros Hne.
  induction m as [|[k2 v2] m IH]; simpl.
  - now apply String.eqb_neq in Hne as ->.
  - destruct (String.eqb_spec k' k2) as [->|E]; simpl.
    + now apply String.eqb_neq in Hne as ->.
    + now rewrite IH.
Qed.

Lemma init_plugins_log (l : list string) (w : World) :
  fold_left (fun w p => log (PluginInit p) w) l w
  = {| manager := manager w; heap := heap w; next := next w; now := now w;
       trace := trace w ++ map PluginInit l |}.
Proof.
  revert w. induction l as [|p l IH]; intros w; simpl.
  - rewrite List.app_nil_r. now destruct w.
  - rewrite IH. simpl. now rewrite <- List.app_assoc.
Qed.

(** What the loop over the nodes leaves alone. *)
Lemma connect_all_frame (connect_throws : string -> bool)
    (nodes : list Socket.SocketData) (w : World) :
  heap (connect_all connect_throws nodes w) = heap w
  /\ next (connect_all connect_throws nodes w) = next w
  /\ now (connect_all connect_throws nodes w) = now w
  /\ players (manager (connect_all connect_throws nodes w))
     = players (manager w)
  /\ userId (manager (connect_all connect_throws nodes w)) = userId (manager w)
  /\ plugins (manager (connect_all connect_throws nodes w))
     = plugins (manager w).
Proof.
  revert w. induction nodes as [|s nodes IH]; intros w; simpl.
  - repeat split.
  - destruct (map_has _ _); [apply IH|].
    destruct (connect_throws _).
    + destruct (IH (log (SocketError (Socket.data_id s)) w))
        as (-> & -> & -> & -> & -> & ->). repeat split.
    + match goal with
      | |- context [connect_all _ _ ?w1] =>
          destruct (IH w1) as (-> & -> & -> & -> & -> & ->)
      end.
      repeat split.
Qed.

Lemma connect_all_get (connect_throws : string -> bool)
    (nodes : list Socket.SocketData) (w : World) (id : string) (s : Socket.t) :
  map_get id (sockets (manager w)) = Some s ->
  map_get id (sockets (manager (connect_all connect_throws nodes w))) = Some s.
Proof.
  revert w. induction nodes as [|n nodes IH]; intros w Hget; simpl.
  - exact Hget.
  - destruct (map_has (Socket.data_id n) (sockets (manager w))) eqn:Hhas;
      [now apply IH|].
    destruct (connect_throws _); [now apply IH|].
    apply IH. simpl. rewrite map_get_set_other; [exact Hget|].
    intros ->. apply map_has_false in Hhas. unfold map_get in Hget. congruence.
Qed.



Lemma connect_all_trace (connect_throws : string -> bool)
    (nodes : list Socket.SocketData) (w : World) :
  trace (connect_all connect_throws nodes w)
  = trace w
    ++ map SocketError
         (List.filter
            (fun id =>
               connect_throws id && negb (map_has id (sockets (manager w))))
            (map Socket.data_id nodes)).
Proof.
  revert w. induction nodes as [|n nodes IH]; intros w; simpl.
  - now rewrite List.app_nil_r.
  - destruct (map_has (Socket.data_id n) (sockets (manager w))) eqn:Hhas.
    + rewrite andb_false_r. apply IH.
    + destruct (connect_throws (Socket.data_id n)) eqn:Hct; simpl.
      * rewrite IH. simpl. now rewrite <- List.app_assoc.
      * rewrite IH. simpl. f_equal. f_equal.
        apply filter_ext_in. intros id _. rewrite map_has_set.
        destruct (String.eqb_spec id (Socket.data_id n)) as [->|E];
          [now rewrite Hct|reflexivity].
Qed.

Lemma init_unfold (connect_throws : string -> bool) (user : option string)
    (w : World) :
  init connect_throws user w
  = match effective_user user w with
    | Some u =>
        if String.eqb u "" then
          (Throw (PlainError "Provide a client id for lavalink to use."), w)
        else
          (Return tt,
           connect_all connect_throws (nodes (manager w))
             {| manager := set_userId (Some u) (manager w);
                heap := heap w; next := next w; now := now w;
                trace := trace w ++ map PluginInit (plugins (manager w)) |})
    | None => (Throw (PlainError "Provide a client id for lavalink to use."), w)
    end.
Proof.
  unfold init, effective_user.
  destruct (match user with Some u => Some u | None => userId (manager w) end)
    as [u|]; [|reflexivity].
  destruct (String.eqb u ""); [reflexivity|].
  now rewrite init_plugins_log.
Qed.

(** X5: [init] goes through exactly when its argument, or else the user id
    the manager was constructed with, is a non-empty id; it then keeps that
    id as the manager's.  When it throws, nothing has happened: no plugin is
    initialised and no socket is connected. *)
Theorem init_user_id (connect_throws : string -> bool) (user : option string)
    (w : World) :
  (fst (init connect_throws user w) = Return tt
   <-> exists u, effective_user user w = Some u /\ u <> "")
  /\ (forall e, fst (init connect_throws user w) = Throw e ->
        snd (init connect_throws user w) = w
        /\ e = PlainError "Provide a client id for lavalink to use.")
  /\ (forall u, effective_user user w = Some u -> u <> "" ->
        userId (manager (snd (init connect_throws user w))) = Some u).
Proof.
  rewrite init_unfold.
  destruct (effective_user user w) as [u|].
  - destruct (String.eqb_spec u "") as [->|Hne]; simpl.
    + split; [|split].
      * split; [discriminate|]. intros (u & [= <-] & H). contradiction.
      * intros e [= <-]. now split.
      * intros u [= <-] H. contradiction.
    + split; [|split].
      * split; [|reflexivity]. intros _. now exists u.
      * intros e H. discriminate.
      * intros u' [= <-] _.
        match goal with
        | |- context [connect_all _ ?ns ?w1] =>
            destruct (connect_all_frame connect_throws ns w1)
              as (_ & _ & _ & _ & -> & _)
        end.
        reflexivity.
  - simpl. split; [|split].
    + split; [discriminate|]. intros (u & H & _). discriminate.
    + intros e [= <-]. now split.
    + intros u H. discriminate.
Qed.

Lemma init_user_id_witness :
  userId (manager (snd (init MoreSamples.n2_throws (Some "bot")
                          MoreSamples.fresh_world)))
  = Some "bot".
Proof.
  apply (proj2 (proj2 (init_user_id MoreSamples.n2_throws (Some "bot")
                         MoreSamples.fresh_world)) "bot");
    [reflexivity|discriminate].
Defined.







(** X7: [init] never replaces a socket: one that is registered under an id
    is still the socket of that id afterwards, so that a second [init] only
    adds the nodes that are not there yet; the players and their objects are
    not touched. *)
Theorem init_keeps_sockets (connect_throws : string -> bool)
    (user : option string) (w : World) :
  (forall id s,
      map_get id (sockets (manager w)) = Some s ->
      map_get id (sockets (manager (snd (init connect_throws user w))))
      = Some s)
  /\ players (manager (snd (init connect_throws user w))) = players (manager w)
  /\ heap (snd (init connect_throws user w)) = heap w.
Proof.
  rewrite init_unfold.
  destruct (effective_user user w) as [u|]; [|now repeat split].
  destruct (String.eqb u ""); [now repeat split|]. simpl.
  match goal with
  | |- context [connect_all _ ?ns ?w1] =>
      destruct (connect_all_frame connect_throws ns w1)
        as (Hh & _ & _ & Hp & _ & _)
  end.
  rewrite Hh, Hp. repeat split.
  intros id s Hget. now apply connect_all_get.
Qed.

Lemma init_keeps_sockets_witness :
  map_get "n1"
    (sockets (manager (snd (init MoreSamples.none_throws None
                              MoreSamples.rerun_world))))
  = Some MoreSamples.n1_ready
  /\ map fst (sockets (manager (snd (init MoreSamples.none_throws None
                                       MoreSamples.rerun_world))))
     = ["n1"; "n2"].
Proof.
  split; [|reflexivity].
  apply (proj1 (init_keeps_sockets MoreSamples.none_throws None
                  MoreSamples.rerun_world) "n1").
  reflexivity.
Defined.

(** The trace of a successful [init]. *)
Lemma init_logs (connect_throws : string -> bool) (user : option string)
    (w : World) :
  fst (init connect_throws user w) = Return tt ->
  trace (snd (init connect_throws user w))
  = trace w
    ++ map PluginInit (plugins (manager w))
    ++ map SocketError (failing connect_throws w).
Proof.
  rewrite init_unfold.
  destruct (effective_user user w) as [u|]; [|discriminate].
  destruct (String.eqb u ""); [discriminate|]. intros _. simpl.
  rewrite connect_all_trace. simpl. now rewrite <- List.app_assoc.
Qed.



(** X9: [use] loads the plugin at once and puts it last in the array of
    plugins, leaving the rest of the manager as it was; a later [init]
    initialises it after the plugins that were there before. *)
Theorem use_then_init (connect_throws : string -> bool)
    (user : option string) (plugin : string) (w : World) :
  trace (use plugin w) = trace w ++ [PluginLoad plugin]
  /\ plugins (manager (use plugin w)) = plugins (manager w) ++ [plugin]
  /\ sockets (manager (use plugin w)) = sockets (manager w)
  /\ players (manager (use plugin w)) = players (manager w)
  /\ heap (use plugin w) = heap w
  /\ (fst (init connect_throws user (use plugin w)) = Return tt ->
      trace (snd (init connect_throws user (use plugin w)))
      = trace w
        ++ [PluginLoad plugin]
        ++ map PluginInit (plugins (manager w) ++ [plugin])
        ++ map SocketError (failing connect_throws w)).
Proof.
  repeat split. intros Hok. rewrite (init_logs _ _ _ Hok). simpl.
  now rewrite <- List.app_assoc.
Qed.

Lemma use_then_init_witness :
  trace (snd (init MoreSamples.n2_throws (Some "bot")
                (use "p2" MoreSamples.fresh_world)))
  = [] ++ [PluginLoad "p2"] ++ map PluginInit (["p1"] ++ ["p2"])
    ++ map SocketError ["n2"].
Proof.
  apply (proj2 (proj2 (proj2 (proj2 (proj2
           (use_then_init MoreSamples.n2_throws (Some "bot") "p2"
              MoreSamples.fresh_world)))))).
  reflexivity.
Defined.

End Init.

(** ** More on construction *)

Section ConstructionMore.

Import Manager.

Lemma assign_no_options (d : Options.t) :
  Options.assign d Samples.no_options = d.
Proof. now destruct d. Qed.

Lemma defaults_after_assign (d o : Options.t)
    (nodes : list Socket.SocketData) :
  defaults_after (constructor d nodes o) = Options.assign d o.
Proof.
  unfold constructor.
  destruct (Options.send_rejected _); [reflexivity|].
  now destruct (Options.shards_rejected _).
Qed.

(** X10: the options of one construction stay in the module's defaults.  A
    manager constructed with an empty options object after one constructed
    with the options [o] comes out as if it had been given [o] itself: the
    same error or the same manager, with the same send function, shard
    count and plugins. *)
Theorem constructor_options_persist (d o : Options.t)
    (nodes nodes' : list Socket.SocketData) :
  constructor (defaults_after (constructor d nodes o)) nodes'
    Samples.no_options
  = constructor d nodes' o.
Proof.
  rewrite defaults_after_assign. unfold constructor.
  now rewrite assign_no_options.
Qed.

(** X11: what [resuming] becomes.  Given [true], the manager's resume
    options are the value [true] itself, since [defaults.resuming] is read
    after [Object.assign] has written the option into [defaults]; given
    [false] they are null; given an object they are that object.  Left
    out, the option is the one the defaults hold at that moment and is
    treated the same way: the object or the [true] of the defaults, null
    when the defaults hold [false], undefined when they hold nothing. *)
Theorem constructor_resuming (d o : Options.t)
    (nodes : list Socket.SocketData) (m : Manager.t) :
  result (constructor d nodes o) = Return m ->
  (Options.resuming o = Some (Options.ResumingBool true) ->
   resuming m = Val (Options.ResumingBool true))
  /\ (Options.resuming o = Some (Options.ResumingBool false) ->
      resuming m = Null)
  /\ (forall r, Options.resuming o = Some (Options.ResumingObject r) ->
        resuming m = Val (Options.ResumingObject r))
  /\ (Options.resuming o = None ->
      resuming m
      = match Options.resuming d with
        | Some (Options.ResumingBool false) => Null
        | Some v => Val v
        | None => Undefined
        end).
Proof.
  unfold constructor.
  destruct (Options.send_rejected _); [discriminate|].
  destruct (Options.shards_rejected _); [discriminate|].
  simpl. intros [= <-]. simpl.
  split; [now intros ->|]. split; [now intros ->|].
  split; [now intros r ->|].
  intros ->. simpl. now destruct (Options.resuming d) as [[[]|]|].
Qed.

Lemma constructor_resuming_witness :
  resuming MoreSamples.built
  = Val (Options.ResumingObject
           {| Options.timeout := Some 60000; Options.key := Some "key" |}).
Proof.
  apply (proj2 (proj2 (proj2 (constructor_resuming (Options.defaults "key")
                                Samples.with_send [] MoreSamples.built
                                eq_refl)))).
  reflexivity.
Defined.

End ConstructionMore.

(** ** Entries of a map *)

Section MapEntries.

Context {V : Type}.

Lemma map_get_In_entry (k : string) (v : V) (m : Map V) :
  map_get k m = Some v -> In (k, v) m.
Proof.
  unfold map_get.
  induction m as [|[k' v'] m IH]; simpl; [discriminate|].
  destruct (String.eqb_spec k k') as [->|E].
  - intros [= ->]. now left.
  - intros H. right. now apply IH.
Qed.

End MapEntries.

(** ** More on create and destroy *)

Section CreateDestroy.

Import Manager Props.

(** The effects of a create that makes a player. *)
Lemma create_fresh (guild : Guild) (s : Socket.t) (w : World) :
  map_get (guild_key guild) (players (manager w)) = None ->
  fst (create guild (Some s) w) = Return (next w)
  /\ heap (snd (create guild (Some s) w)) !! next w
     = Some (Player.new s (guild_key guild))
  /\ map_get (guild_key guild)
       (players (manager (snd (create guild (Some s) w))))
     = Some (next w)
  /\ (forall k, k <> guild_key guild ->
        map_get k (players (manager (snd (create guild (Some s) w))))
        = map_get k (players (manager w)))
  /\ (forall r, r <> next w ->
        heap (snd (create guild (Some s) w)) !! r = heap w !! r)
  /\ sockets (manager (snd (create guild (Some s) w))) = sockets (manager w)
  /\ trace (snd (create guild (Some s) w)) = trace w.
Proof.
  intros Hget. unfold create. rewrite Hget. simpl.
  split; [reflexivity|]. split; [apply lookup_insert_eq|].
  split; [apply map_get_set_eq|]. split; [|split].
  - intros k Hk. now apply map_get_set_other.
  - intros r Hr. apply lookup_insert_ne. congruence.
  - now split.
Qed.

(** X12: create-player for a guild id without a player, given a socket,
    makes a new object at a fresh address, bound to that very socket
    whatever its state, with a new filter state, and registers it under the
    guild id; the other entries of the registry, the other objects and the
    sockets stay as they are, and nothing is sent. *)
Theorem create_new (guild : Guild) (s : Socket.t) (w : World) :
  map_get (guild_key guild) (players (manager w)) = None ->
  fst (create guild (Some s) w) = Return (next w)
  /\ heap (snd (create guild (Some s) w)) !! next w
     = Some (Player.new s (guild_key guild))
  /\ map_get (guild_key guild)
       (players (manager (snd (create guild (Some s) w))))
     = Some (next w)
  /\ (forall k, k <> guild_key guild ->
        map_get k (players (manager (snd (create guild (Some s) w))))
        = map_get k (players (manager w)))
  /\ (forall r, r <> next w ->
        heap (snd (create guild (Some s) w)) !! r = heap w !! r)
  /\ sockets (manager (snd (create guild (Some s) w))) = sockets (manager w)
  /\ trace (snd (create guild (Some s) w)) = trace w.
Proof. apply create_fresh. Qed.

Lemma create_new_witness :
  heap (snd (create (GuildId "g2") (Some Samples.socket_X)
               (Samples.world_of Samples.player_P 0))) !! 1%nat
  = Some (Player.new Samples.socket_X "g2").
Proof.
  apply (proj1 (proj2 (create_new (GuildId "g2") Samples.socket_X
                         (Samples.world_of Samples.player_P 0) eq_refl))).
Defined.

(** X13: create-player without a socket, for a guild id without a player,
    binds the new player to the socket node selection picks: it succeeds
    exactly when some socket of the registry is connected, and the player is
    then on the connected socket of least penalty. *)
Theorem create_on_selected (guild : Guild) (w : World) :
  map_get (guild_key guild) (players (manager w)) = None ->
  ((exists r, fst (create guild None w) = Return r)
   <-> exists s, In s (map_values (sockets (manager w)))
                 /\ Socket.status s = Socket.CONNECTED)
  /\ (forall r, fst (create guild None w) = Return r ->
        exists s,
          selected (map_values (sockets (manager w))) s
          /\ heap (snd (create guild None w)) !! r
             = Some (Player.new s (guild_key guild))).
Proof.
  intros Hget. unfold create. rewrite Hget.
  destruct (ideal0 (manager w)) as [s|] eqn:Hs; simpl.
  - split.
    + split; [|intros _; now eexists].
      intros _. destruct (pick_selected _ _ Hs)
        as (before & after & Heq & Hc & _).
      exists s. split; [|exact Hc]. rewrite Heq.
      apply in_or_app. right. now left.
    + intros r [= <-]. exists s. split; [now apply pick_selected|].
      apply lookup_insert_eq.
  - split.
    + split; [intros (r & H); discriminate|].
      intros (s & Hin & Hc). exfalso.
      now apply (proj1 (pick_none _) Hs s Hin).
    + intros r H. discriminate.
Qed.

Lemma create_on_selected_witness :
  exists s,
    selected
      (map_values
         (sockets (manager (MoreSamples.world_with_Y Samples.player_P 0)))) s
    /\ heap (snd (create (GuildId "g2") None
                    (MoreSamples.world_with_Y Samples.player_P 0))) !! 1%nat
       = Some (Player.new s "g2").
Proof.
  apply (proj2 (create_on_selected (GuildId "g2")
                  (MoreSamples.world_with_Y Samples.player_P 0) eq_refl)
           1%nat).
  reflexivity.
Defined.

(** The effects of a destroy. *)
Lemma destroy_effects (guild : Guild) (w : World) :
  (map_get (guild_key guild) (players (manager w)) = None ->
   destroy guild w = (false, w))
  /\ (forall r,
        List.NoDup (map fst (players (manager w))) ->
        map_get (guild_key guild) (players (manager w)) = Some r ->
        fst (destroy guild w) = true
        /\ trace (snd (destroy guild w)) = trace w ++ [Teardown r true]
        /\ map_get (guild_key guild)
             (players (manager (snd (destroy guild w)))) = None
        /\ (forall k, k <> guild_key guild ->
              map_get k (players (manager (snd (destroy guild w))))
              = map_get k (players (manager w)))
        /\ heap (snd (destroy guild w)) = heap w
        /\ sockets (manager (snd (destroy guild w))) = sockets (manager w)
        /\ fst (destroy guild (snd (destroy guild w))) = false).
Proof.
  split.
  - intros Hget. unfold destroy. now rewrite Hget.
  - intros r Hnd Hget.
    assert (Hgone : map_get (guild_key guild)
              (map_delete (guild_key guild) (players (manager w))) = None).
    { now apply map_get_delete_eq. }
    unfold destroy at 1 2 3 4 5 6. rewrite Hget. simpl.
    split; [apply map_has_get; now exists r|].
    split; [reflexivity|]. split; [exact Hgone|]. split; [|split; [|split]].
    + intros k Hk. now apply map_get_delete_ne.
    + reflexivity.
    + reflexivity.
    + unfold destroy. rewrite Hget. simpl. unfold destroy. simpl.
      now rewrite Hgone.
Qed.

(** X14: destroy-player.  For a guild id without a player it returns false
    and does nothing.  For a guild id with a player it returns true after
    one teardown of that player, with disconnect set, and takes the entry
    out of the registry; the other entries, the objects and the sockets stay
    as they are, and a second destroy returns false. *)
Theorem destroy_spec (guild : Guild) (w : World) :
  (map_get (guild_key guild) (players (manager w)) = None ->
   destroy guild w = (false, w))
  /\ (forall r,
        List.NoDup (map fst (players (manager w))) ->
        map_get (guild_key guild) (players (manager w)) = Some r ->
        fst (destroy guild w) = true
        /\ trace (snd (destroy guild w)) = trace w ++ [Teardown r true]
        /\ map_get (guild_key guild)
             (players (manager (snd (destroy guild w)))) = None
        /\ (forall k, k <> guild_key guild ->
              map_get k (players (manager (snd (destroy guild w))))
              = map_get k (players (manager w)))
        /\ heap (snd (destroy guild w)) = heap w
        /\ sockets (manager (snd (destroy guild w))) = sockets (manager w)
        /\ fst (destroy guild (snd (destroy guild w))) = false).
Proof. apply destroy_effects. Qed.

Lemma destroy_spec_witness :
  fst (destroy (GuildId "g1") (Samples.world_of Samples.player_P 0)) = true
  /\ destroy (GuildId "g9") (Samples.world_of Samples.player_P 0)
     = (false, Samples.world_of Samples.player_P 0).
Proof.
  split.
  - apply (proj2 (destroy_spec (GuildId "g1")
                    (Samples.world_of Samples.player_P 0)) O).
    + simpl. repeat constructor. intros [].
    + reflexivity.
  - apply (proj1 (destroy_spec (GuildId "g9")
                    (Samples.world_of Samples.player_P 0))).
    reflexivity.
Defined.

(** X15: a player created after a destroy is a new instance.  In a world in
    order, create-player for the guild id of a destroyed player returns an
    address that differs from the one of the destroyed player, with a new
    player object behind it; the object of the destroyed player is left as
    it was. *)
Theorem create_after_destroy (guild : Guild) (s : Socket.t) (w : World)
    (r : ref) :
  well_formed w ->
  map_get (guild_key guild) (players (manager w)) = Some r ->
  exists r',
    fst (create guild (Some s) (snd (destroy guild w))) = Return r'
    /\ r' <> r
    /\ heap (snd (create guild (Some s) (snd (destroy guild w)))) !! r'
       = Some (Player.new s (guild_key guild))
    /\ heap (snd (create guild (Some s) (snd (destroy guild w)))) !! r
       = heap w !! r.
Proof.
  intros [[Hnd Hreg] Hfresh] Hget.
  destruct (proj2 (destroy_effects guild w) r Hnd Hget)
    as (_ & _ & Hgone & _ & Hheap & _).
  destruct (create_fresh guild s (snd (destroy guild w)) Hgone)
    as (Hret & Hnew & _ & _ & Hother & _).
  assert (Hnext : next (snd (destroy guild w)) = next w).
  { unfold destroy. now rewrite Hget. }
  assert (Hr : next w <> r).
  { intros <-. apply map_get_In_entry in Hget.
    destruct (Hreg _ _ Hget) as (p & Hp & _).
    rewrite Hfresh in Hp by lia. discriminate. }
  exists (next w). rewrite Hnext in *. repeat split; try assumption.
  rewrite Hother by congruence. now rewrite Hheap.
Qed.

Lemma create_after_destroy_witness :
  exists r',
    fst (create (GuildId "g1") (Some Samples.socket_Y)
           (snd (destroy (GuildId "g1")
                   (Samples.world_of Samples.player_P 0)))) = Return r'
    /\ r' <> O
    /\ heap (snd (create (GuildId "g1") (Some Samples.socket_Y)
                    (snd (destroy (GuildId "g1")
                            (Samples.world_of Samples.player_P 0))))) !! r'
       = Some (Player.new Samples.socket_Y "g1")
    /\ heap (snd (create (GuildId "g1") (Some Samples.socket_Y)
                    (snd (destroy (GuildId "g1")
                            (Samples.world_of Samples.player_P 0))))) !! O
       = heap (Samples.world_of Samples.player_P 0) !! O.
Proof.
  apply (create_after_destroy (GuildId "g1") Samples.socket_Y
           (Samples.world_of Samples.player_P 0) O).
  - split; [apply world_of_registered; reflexivity|].
    intros r Hr. simpl in *. apply lookup_singleton_ne. lia.
  - reflexivity.
Defined.

End CreateDestroy.

(** ** More on failover *)

Section Bystander.

Import Manager Props.

Variable socket : Socket.t.
Variable r : ref.
Variable k : string.
Variable p : Player.t.
Hypothesis elsewhere : Socket.id (Player.socket p) <> Socket.id socket.

Lemma visit_bystander (w : World) :
  heap w !! r = Some p -> visit socket r w = (w, None).
Proof.
  intros Hp. unfold visit. rewrite Hp.
  now apply String.eqb_neq in elsewhere as ->.
Qed.

(** The sweep passes a player of another connection by. *)
Lemma forEach_bystander (entries : list (string * ref)) (w : World) :
  List.NoDup (map fst entries) ->
  (forall k' r', In (k', r') entries ->
     (Player.guild <$> heap w !! r') = Some k') ->
  In (k, r) entries ->
  heap w !! r = Some p ->
  heap (fst (forEach socket entries w)) !! r = Some p
  /\ history r (fst (forEach socket entries w)) = history r w
  /\ map_get k (players (manager (fst (forEach socket entries w))))
     = map_get k (players (manager w))
  /\ others r (snd (forEach socket entries w)).
Proof.
  revert w. induction entries as [|[k0 r0] entries IH];
    intros w Hnd Hall Hin Hp; [destruct Hin|].
  simpl in Hnd. apply List.NoDup_cons_iff in Hnd as [Hk0 Hnd].
  assert (Hg : (Player.guild <$> heap w !! r) = Some k) by now apply Hall.
  simpl forEach. destruct Hin as [[= -> ->]|Hin].
  - assert (Hrest : forall k' r', In (k', r') entries ->
              (Player.guild <$> heap w !! r') = Some k' /\ k' <> k /\ r' <> r).
    { apply other_entries; [exact Hk0|exact Hg|].
      intros k' r' Hin. apply Hall. now right. }
    pose proof (forEach_frame socket r k entries w Hrest)
      as (Hh & Hi & Hpl & _ & _ & Ho).
    destruct (map_has k (players (manager w))).
    + rewrite (visit_bystander w Hp).
      destruct (forEach socket entries w) as [w2 ts]. simpl in *.
      now rewrite Hh.
    + now rewrite Hh.
  - assert (Hk : k0 <> k).
    { intros ->. apply Hk0. apply in_map_iff. now exists (k, r). }
    assert (Hr : r0 <> r).
    { intros ->. specialize (Hall k0 r (or_introl eq_refl)). congruence. }
    assert (Hall' : forall k' r', In (k', r') entries ->
              (Player.guild <$> heap w !! r') = Some k').
    { intros k' r' Hin'. apply Hall. now right. }
    destruct (map_has k0 (players (manager w))); [|now apply IH].
    pose proof (visit_frame socket r r0 k k0 w Hr
                  (Hall k0 r0 (or_introl eq_refl)) Hk) as (Hh & Hi & Hpl & Ho).
    pose proof (visit_env socket r0 w) as (_ & _ & Hsg & _).
    destruct (visit socket r0 w) as [w1 o]. simpl in *.
    assert (Hall1 : forall k' r', In (k', r') entries ->
              (Player.guild <$> heap w1 !! r') = Some k').
    { intros k' r' Hin'. rewrite Hsg. now apply Hall'. }
    specialize (IH w1 Hnd Hall1 Hin). rewrite Hh in IH. specialize (IH Hp).
    destruct IH as (IH1 & IH2 & IH3 & IH4). rewrite Hi in IH2.
    rewrite Hpl in IH3.
    destruct (forEach socket entries w1) as [w2 ts]. simpl in *.
    repeat split; try assumption.
    unfold others in *. destruct o as [t|]; simpl; [|exact IH4].
    constructor; [now inversion Ho|exact IH4].
Qed.

End Bystander.

Section FailoverMore.

Import Manager Props MoreProps.

Lemma forEach_no_tasks (socket : Socket.t) (entries : list (string * ref))
    (w : World) (s : Socket.t) :
  ideal0 (manager w) = Some s ->
  snd (forEach socket entries w) = [].
Proof.
  revert w. induction entries as [|[k r] entries IH]; intros w Hs; simpl;
    [reflexivity|].
  destruct (map_has k (players (manager w))); [|now apply IH].
  pose proof (visit_env socket r w) as (Hsock & _).
  assert (Ho : snd (visit socket r w) = None).
  { unfold visit. destruct (heap w !! r) as [p|]; [|reflexivity].
    destruct (String.eqb _ _); [|reflexivity].
    destruct (negb _); [reflexivity|].
    now rewrite find_socket_pending, Hs. }
  destruct (visit socket r w) as [w1 o]. simpl in *. subst o.
  specialize (IH w1). rewrite (ideal0_sockets _ _ Hsock) in IH.
  specialize (IH Hs).
  destruct (forEach socket entries w1) as [w2 ts]. simpl in *. exact IH.
Qed.

Lemma relocation_no_timer (r : ref) (p : Player.t) (s : Socket.t) (t : Z) :
  Forall no_timer (relocation r p s t).
Proof.
  unfold relocation. apply Forall_app. split; [repeat constructor|].
  destruct (Player.track p) as [| |tr]; try constructor.
  destruct (truthy_str (Val tr)); repeat constructor.
Qed.

Lemma visit_no_timers (socket : Socket.t) (r : ref) (w : World)
    (s : Socket.t) :
  ideal0 (manager w) = Some s ->
  exists es,
    trace (fst (visit socket r w)) = trace w ++ es /\ Forall no_timer es.
Proof.
  intros Hs. unfold visit.
  destruct (heap w !! r) as [p|];
    [|exists []; split; [now rewrite List.app_nil_r|constructor]].
  destruct (String.eqb _ _);
    [|exists []; split; [now rewrite List.app_nil_r|constructor]].
  destruct (negb _);
    [exists []; split; [now rewrite List.app_nil_r|constructor]|].
  match goal with
  | |- context [find_socket ?t w] =>
      destruct (find_socket_some t w s Hs) as (w' & -> & _ & _ & _ & Ht)
  end.
  simpl. eexists. split; [exact Ht|].
  destruct (heap w !! _); [apply relocation_no_timer|constructor].
Qed.

Lemma forEach_no_timers (socket : Socket.t) (entries : list (string * ref))
    (w : World) (s : Socket.t) :
  ideal0 (manager w) = Some s ->
  exists es,
    trace (fst (forEach socket entries w)) = trace w ++ es
    /\ Forall no_timer es.
Proof.
  revert w. induction entries as [|[k r] entries IH]; intros w Hs; simpl.
  - exists []. split; [now rewrite List.app_nil_r|constructor].
  - destruct (map_has k (players (manager w))); [|now apply IH].
    pose proof (visit_env socket r w) as (Hsock & _).
    destruct (visit_no_timers socket r w s Hs) as (es1 & Ht1 & Hes1).
    destruct (visit socket r w) as [w1 o]. simpl in *.
    specialize (IH w1). rewrite (ideal0_sockets _ _ Hsock) in IH.
    destruct (IH Hs) as (es2 & Ht2 & Hes2).
    destruct (forEach socket entries w1) as [w2 ts]. simpl in *.
    exists (es1 ++ es2). split.
    + now rewrite Ht2, Ht1, <- List.app_assoc.
    + apply Forall_app. now split.
Qed.

Lemma found_in_first (m : Manager.t) (schedule : list Tick) (a n : nat)
    (t : Z) (s : Socket.t) :
  found_in m schedule a = Some (n, t, s) ->
  exists before k after,
    schedule = before ++ k :: after
    /\ n = (a + length before)%nat
    /\ t = tick_now k
    /\ pick (map_values (tick_sockets k)) = Some s
    /\ all_down before.
Proof.
  revert a. induction schedule as [|k schedule IH]; intros a; simpl;
    [discriminate|].
  change (ideal0 (set_sockets (tick_sockets k) m))
    with (pick (map_values (tick_sockets k))).
  destruct (pick (map_values (tick_sockets k))) as [s'|] eqn:Hk.
  - intros [= <- <- <-]. exists [], k, schedule.
    repeat split; [simpl; lia|exact Hk|constructor].
  - intros H. destruct (IH _ H) as (before & k' & after & -> & -> & -> & Hs & Hd).
    exists (k :: before), k', after.
    repeat split; [simpl; lia|exact Hs|]. constructor; assumption.
Qed.

Variable socket : Socket.t.
Variable schedule : list Tick.
Variable w : World.
Variable k : string.
Variable r : ref.
Variable p : Player.t.

(** X16: a failover touches the players of the lost connection only.  A
    registered player that is bound to a connection of another id keeps its
    place in the registry and its object as it is, and nothing is sent or
    scheduled for it. *)
Theorem failover_bystander :
  registered w ->
  In (k, r) (players (manager w)) ->
  heap w !! r = Some p ->
  Socket.id (Player.socket p) <> Socket.id socket ->
  heap (fst (failover socket schedule w)) !! r = Some p
  /\ history r (fst (failover socket schedule w)) = history r w
  /\ map_get k (players (manager (fst (failover socket schedule w)))) = Some r
  /\ others r (snd (failover socket schedule w)).
Proof.
  intros Hreg Hin Hp Hid. rewrite failover_run. unfold fallback.
  pose proof (forEach_bystander socket r k p Hid (players (manager w)) w
                (proj1 Hreg) (registered_guilds w Hreg) Hin Hp)
    as (Hh & Hi & Hget & Ho).
  rewrite (In_map_get k r _ (proj1 Hreg) Hin) in Hget.
  destruct (forEach socket (players (manager w)) w) as [w1 tasks].
  simpl in *.
  pose proof (run_frame r schedule tasks w1 Ho) as (Hh' & Hi' & Hpl' & Ho').
  now rewrite Hh', Hi', Hpl'.
Qed.

(** X17: while no socket is connected the failover keeps polling.  A player
    in a channel stays bound to the lost connection and in the registry;
    one timer of 1000 ms is armed for it at the loss and one at each tick of
    the schedule, however long the schedule is, nothing is sent for it, and
    its task is still waiting at the end. *)
Theorem failover_keeps_polling (c : string) :
  registered w ->
  In (k, r) (players (manager w)) ->
  heap w !! r = Some p ->
  Socket.id (Player.socket p) = Socket.id socket ->
  Player.channel p = Val c -> c <> "" ->
  found w schedule = None ->
  heap (fst (failover socket schedule w)) !! r = Some p
  /\ history r (fst (failover socket schedule w))
     = history r w ++ repeat (SetTimeout r 1000) (S (length schedule))
  /\ In (task_of r p w) (snd (failover socket schedule w)).
Proof.
  intros Hreg Hin Hp Hid Hc Hne Hfound.
  apply (failover_waiting socket schedule w k r p Hreg Hin Hp Hid);
    [now apply (truthy_channel p c)|exact Hfound].
Qed.

(** X18: a player without an active track is relocated without a play
    command: after the timers, the voice update and the filters are all
    that is sent for it. *)
Theorem failover_without_track (c : string) (n : nat) (time : Z)
    (s : Socket.t) :
  registered w ->
  In (k, r) (players (manager w)) ->
  heap w !! r = Some p ->
  Socket.id (Player.socket p) = Socket.id socket ->
  Player.channel p = Val c -> c <> "" ->
  truthy_str (Player.track p) = false ->
  found w schedule = Some (n, time, s) ->
  history r (fst (failover socket schedule w))
  = history r w
    ++ repeat (SetTimeout r 1000) n
    ++ [Send r (Socket.id s) "voiceUpdate"
          (DVoiceUpdate (Player._sessionId p) (Player._server p)) None;
        Send r (Socket.id s) "filters"
          (DFilters (Filters.payload (Player.filters p))) (Some false)].
Proof.
  intros Hreg Hin Hp Hid Hc Hne Htr Hfound.
  destruct (failover_relocation socket schedule w k r p Hreg Hin Hp Hid
              n time s (truthy_channel p c Hc Hne) Hfound) as (_ & -> & _).
  unfold relocation.
  destruct (Player.track p) as [| |tr]; try reflexivity.
  now rewrite Htr.
Qed.

(** X19: where a failover takes a player in a channel.  The connection it
    is moved to is the one node selection picks at the first moment a
    socket is connected, at the loss itself or at the first tick that shows
    one; the player ends up bound to it and every message sent for the
    player goes to it. *)
Theorem failover_target (c : string) (n : nat) (time : Z) (s : Socket.t) :
  registered w ->
  In (k, r) (players (manager w)) ->
  heap w !! r = Some p ->
  Socket.id (Player.socket p) = Socket.id socket ->
  Player.channel p = Val c -> c <> "" ->
  found w schedule = Some (n, time, s) ->
  ((n = O /\ time = now w
    /\ selected (map_values (sockets (manager w))) s)
   \/ (exists before tick after,
         schedule = before ++ tick :: after
         /\ n = S (length before) /\ time = tick_now tick
         /\ pick (map_values (sockets (manager w))) = None
         /\ all_down before
         /\ selected (map_values (tick_sockets tick)) s))
  /\ (Player.socket <$> heap (fst (failover socket schedule w)) !! r) = Some s
  /\ exists sent,
       history r (fst (failover socket schedule w)) = history r w ++ sent
       /\ Forall (sent_to (Socket.id s)) sent.
Proof.
  intros Hreg Hin Hp Hid Hc Hne Hfound.
  destruct (failover_relocation socket schedule w k r p Hreg Hin Hp Hid
              n time s (truthy_channel p c Hc Hne) Hfound) as (Hh & Hi & _).
  split; [|split].
  - unfold found in Hfound.
    change (ideal0 (manager w))
      with (pick (map_values (sockets (manager w)))) in Hfound.
    destruct (pick (map_values (sockets (manager w)))) as [s0|] eqn:Hs0.
    + injection Hfound as <- <- <-. left.
      repeat split. now apply pick_selected.
    + right. destruct (found_in_first _ _ _ _ _ _ Hfound)
        as (before & tick & after & -> & -> & -> & Hs & Hd).
      exists before, tick, after. repeat split; try assumption.
      now apply pick_selected.
  - now rewrite Hh.
  - eexists. split; [exact Hi|]. apply Forall_app. split.
    + apply List.Forall_forall. intros e He. apply repeat_spec in He as ->.
      exact I.
    + unfold relocation. apply Forall_app. split.
      * repeat constructor.
      * destruct (Player.track p) as [| |tr]; try constructor.
        destruct (truthy_str (Val tr)); repeat constructor.
Qed.

(** X20: when a socket is connected at the moment of the loss there is no
    polling: whatever the players and the schedule, no timer is armed
    during the failover and no task is waiting at its end. *)
Theorem failover_without_polling (s : Socket.t) :
  ideal0 (manager w) = Some s ->
  snd (failover socket schedule w) = []
  /\ exists es,
       trace (fst (failover socket schedule w)) = trace w ++ es
       /\ Forall no_timer es.
Proof.
  intros Hs. rewrite failover_run. unfold fallback.
  pose proof (forEach_no_tasks socket (players (manager w)) w s Hs) as Hnone.
  pose proof (forEach_no_timers socket (players (manager w)) w s Hs)
    as (es & Ht & Hes).
  rewrite Hnone, run_nil. simpl. split; [reflexivity|]. now exists es.
Qed.

End FailoverMore.

Section FailoverMoreWitnesses.

Import Manager Props MoreProps Samples MoreSamples.

Lemma world_with_Y_registered (p : Player.t) (clock : Z) :
  Player.guild p = "g1" -> registered (world_with_Y p clock).
Proof. intros Hg. now apply (world_of_registered p clock). Qed.

Lemma failover_bystander_witness :
  heap (fst (failover socket_X [Y_up 101000]
               (world_of player_on_Y 100000))) !! O
  = Some player_on_Y.
Proof.
  apply (failover_bystander socket_X [Y_up 101000]
           (world_of player_on_Y 100000) "g1" O player_on_Y
           (world_of_registered player_on_Y 100000 eq_refl)
           (or_introl eq_refl) eq_refl).
  discriminate.
Defined.

Lemma failover_keeps_polling_witness :
  history O (fst (failover socket_X [still_down 101000; still_down 102000]
                    (world_of player_P 100000)))
  = history O (world_of player_P 100000) ++ repeat (SetTimeout O 1000) 3.
Proof.
  apply (failover_keeps_polling socket_X
           [still_down 101000; still_down 102000]
           (world_of player_P 100000) "g1" O player_P "c1"
           (world_of_registered player_P 100000 eq_refl)
           (or_introl eq_refl) eq_refl eq_refl eq_refl
           ltac:(discriminate) eq_refl).
Defined.

Lemma failover_without_track_witness :
  history O (fst (failover socket_X [Y_up 101000]
                    (world_of player_idle 100000)))
  = history O (world_of player_idle 100000)
    ++ repeat (SetTimeout O 1000) 1
    ++ [Send O "Y" "voiceUpdate" (DVoiceUpdate (Val "s1") Undefined) None;
        Send O "Y" "filters"
          (DFilters (Filters.payload Filters.new)) (Some false)].
Proof.
  apply (failover_without_track socket_X [Y_up 101000]
           (world_of player_idle 100000) "g1" O player_idle "c1"
           1%nat 101000 socket_Y
           (world_of_registered player_idle 100000 eq_refl)
           (or_introl eq_refl) eq_refl eq_refl eq_refl
           ltac:(discriminate) eq_refl eq_refl).
Defined.

Lemma failover_target_witness :
  (Player.socket
     <$> heap (fst (failover socket_X [still_down 101000; Y_up 102500]
                      (world_of player_P 100000))) !! O)
  = Some socket_Y.
Proof.
  apply (failover_target socket_X [still_down 101000; Y_up 102500]
           (world_of player_P 100000) "g1" O player_P "c1"
           2%nat 102500 socket_Y
           (world_of_registered player_P 100000 eq_refl)
           (or_introl eq_refl) eq_refl eq_refl eq_refl
           ltac:(discriminate) eq_refl).
Defined.

Lemma failover_without_polling_witness :
  snd (failover socket_X [still_down 101000]
         (world_with_Y player_P 100000)) = [].
Proof.
  apply (failover_without_polling socket_X [still_down 101000]
           (world_with_Y player_P 100000) socket_Y).
  reflexivity.
Defined.

End FailoverMoreWitnesses.

(** ** The invariant of the worlds *)

Section InvariantKept.

Import Manager Props MoreProps Plugins.

Lemma well_formed_same (w w' : World) :
  players (manager w') = players (manager w) ->
  heap w' = heap w ->
  next w' = next w ->
  well_formed w -> well_formed w'.
Proof.
  intros Hp Hh Hn [[Hnd Hreg] Hfresh]. split; [split|].
  - now rewrite Hp.
  - intros k r Hin. rewrite Hp in Hin. rewrite Hh. now apply Hreg.
  - intros r Hr. rewrite Hh. apply Hfresh. now rewrite <- Hn.
Qed.

Lemma find_socket_next (t : Task) (w : World) :
  next (fst (find_socket t w)) = next w.
Proof.
  unfold find_socket, Player_move, Filters_apply, Player_play, Player_send.
  repeat match goal with
         | |- context [match ?x with _ => _ end] => destruct x
         end; reflexivity.
Qed.

Lemma visit_next (socket : Socket.t) (r : ref) (w : World) :
  next (fst (visit socket r w)) = next w.
Proof.
  unfold visit. destruct (heap w !! r) as [p|]; [|reflexivity].
  destruct (String.eqb _ _); [|reflexivity].
  destruct (negb _); [reflexivity|]. apply find_socket_next.
Qed.

Lemma forEach_next (socket : Socket.t) (entries : list (string * ref))
    (w : World) :
  next (fst (forEach socket entries w)) = next w.
Proof.
  revert w. induction entries as [|[k r] entries IH]; intros w; simpl;
    [reflexivity|].
  destruct (map_has k (players (manager w))); [|apply IH].
  pose proof (visit_next socket r w) as Hn.
  destruct (visit socket r w) as [w1 o]. simpl in *.
  specialize (IH w1).
  destruct (forEach socket entries w1) as [w2 ts]. simpl in *. congruence.
Qed.

Lemma fire_next (tasks : list Task) (w : World) :
  next (fst (fire tasks w)) = next w.
Proof.
  revert w. induction tasks as [|t tasks IH]; intros w; simpl; [reflexivity|].
  pose proof (find_socket_next t w) as Hn.
  destruct (find_socket t w) as [w1 o]. simpl in *.
  specialize (IH w1). destruct (fire tasks w1) as [w2 ts]. simpl in *.
  congruence.
Qed.

Lemma run_next (schedule : list Tick) (tasks : list Task) (w : World) :
  next (fst (run schedule tasks w)) = next w.
Proof.
  revert tasks w. induction schedule as [|k schedule IH]; intros tasks w.
  - now destruct tasks.
  - destruct tasks as [|t tasks]; [reflexivity|].
    rewrite run_cons by discriminate. rewrite IH, fire_next. reflexivity.
Qed.

Lemma failover_well_formed (socket : Socket.t) (schedule : list Tick)
    (w : World) :
  well_formed w -> well_formed (fst (failover socket schedule w)).
Proof.
  intros [Hreg Hfresh]. split; [now apply failover_registered|].
  rewrite failover_run. unfold fallback.
  pose proof (forEach_env socket (players (manager w)) w) as (Hsg & _).
  pose proof (forEach_next socket (players (manager w)) w) as Hn.
  destruct (forEach socket (players (manager w)) w) as [w1 tasks].
  cbn [fst snd] in *.
  pose proof (run_env schedule tasks w1) as (Hsg' & _).
  pose proof (run_next schedule tasks w1) as Hn'.
  intros r Hr. rewrite Hn', Hn in Hr.
  pose proof (Hsg r) as H1. pose proof (Hsg' r) as H2.
  pose proof (Hfresh r Hr) as H3. unfold ref in *.
  rewrite H3 in H1. rewrite H1 in H2.
  match type of H2 with
  | _ <$> ?x = _ => destruct x eqn:E
  end; [discriminate H2|reflexivity].
Qed.

Lemma init_well_formed (connect_throws : string -> bool)
    (user : option string) (w : World) :
  well_formed w -> well_formed (snd (init connect_throws user w)).
Proof.
  intros Hw. rewrite init_unfold.
  destruct (effective_user user w) as [u|]; [|exact Hw].
  destruct (String.eqb u ""); [exact Hw|]. simpl.
  match goal with
  | |- context [connect_all _ ?ns ?w1] =>
      destruct (connect_all_frame connect_throws ns w1)
        as (Hh & Hn & _ & Hp & _ & _)
  end.
  now apply (well_formed_same w).
Qed.

(** X21: the operations of the manager keep the registry in order.  From a
    world in which every guild id has one entry, every entry holds the
    address of a live player of that guild, and no address at or above the
    next one is in use, each of create, destroy, the two voice updates,
    init, use and a failover over any schedule leads to such a world
    again. *)
Theorem well_formed_kept (w : World) :
  well_formed w ->
  (forall guild socket, well_formed (snd (create guild socket w)))
  /\ (forall guild, well_formed (snd (destroy guild w)))
  /\ (forall update, well_formed (stateUpdate update w))
  /\ (forall update, well_formed (serverUpdate update w))
  /\ (forall connect_throws user,
        well_formed (snd (init connect_throws user w)))
  /\ (forall plugin, well_formed (use plugin w))
  /\ (forall socket schedule,
        well_formed (fst (failover socket schedule w))).
Proof.
  intros Hw.
  split; [intros; now apply create_well_formed|].
  split; [intros; now apply destroy_well_formed|].
  split; [intros; now apply stateUpdate_well_formed|].
  split; [intros; now apply serverUpdate_well_formed|].
  split; [intros; now apply init_well_formed|].
  split; [intros; now apply (well_formed_same w)|].
  intros. now apply failover_well_formed.
Qed.

Lemma well_formed_kept_witness :
  well_formed
    (fst (failover Samples.socket_X [Samples.Y_up 101000]
            (snd (create (GuildId "g2") (Some Samples.socket_X)
                    (Samples.world_of Samples.player_P 100000))))).
Proof.
  assert (H0 : well_formed (Samples.world_of Samples.player_P 100000)).
  { split; [now apply world_of_registered|].
    intros r Hr. simpl in *. apply lookup_singleton_ne. lia. }
  apply (proj2 (proj2 (proj2 (proj2 (proj2 (proj2
           (well_formed_kept _
              (proj1 (well_formed_kept _ H0)
                 (GuildId "g2") (Some Samples.socket_X))))))))).
Defined.

End InvariantKept.

(** ** search *)

Section SearchFacts.

Import Manager Props Search.



End SearchFacts.

(** ** More on the voice updates *)

Section VoiceUpdates.

Import Manager Props.

(** X23: what the manager ignores.  A voice server update or a voice state
    update for a guild id without a player changes nothing, and so does
    every voice state update as long as the manager has no user id.  A
    voice state update of the manager's user that names the channel the
    player is in raises no "move" and leaves the channel and the binding
    of the player as they are. *)
Theorem voice_updates_ignored :
  (forall (update : DiscordVoiceServer) (w : World),
      map_get (vs_guild_id update) (players (manager w)) = None ->
      serverUpdate update w = w)
  /\ (forall (update : DiscordVoiceState) (w : World),
        map_get (guild_id update) (players (manager w)) = None
        \/ userId (manager w) = None ->
        stateUpdate update w = w)
  /\ (forall (update : DiscordVoiceState) (w : World) (player : ref)
             (p : Player.t),
        userId (manager w) = Some (user_id update) ->
        map_get (guild_id update) (players (manager w)) = Some player ->
        heap w !! player = Some p ->
        channel_id update = Player.channel p ->
        (Player.channel <$> heap (stateUpdate update w) !! player)
        = Some (Player.channel p)
        /\ (Player.socket <$> heap (stateUpdate update w) !! player)
           = Some (Player.socket p)
        /\ exists sent,
             trace (stateUpdate update w) = trace w ++ sent
             /\ forall name arg, ~ In (Emit player name arg) sent).
Proof.
  split; [|split].
  - intros update w Hget. unfold serverUpdate. now rewrite Hget.
  - intros update w [Hget|Huser]; unfold stateUpdate, own_user.
    + now rewrite Hget.
    + rewrite Huser. now destruct (map_get _ _).
  - intros update w player p Huser Hget Hp Hch. unfold stateUpdate, own_user.
    rewrite Hget, Huser, String.eqb_refl, Hp.
    rewrite (proj2 (strict_eq_str_eq _ _) Hch). simpl negb. cbv iota.
    split; [|split].
    + rewrite handleVoiceUpdate_heap, lookup_alter_eq, Hp. reflexivity.
    + rewrite handleVoiceUpdate_heap, lookup_alter_eq, Hp. reflexivity.
    + unfold Player_handleVoiceUpdate.
      rewrite lookup_write_eq, Hp. simpl fmap. cbv iota.
      simpl. destruct (Player._server p) as [| |srv]; simpl.
      * exists []. split; [now rewrite List.app_nil_r|]. intros name arg [].
      * exists []. split; [now rewrite List.app_nil_r|]. intros name arg [].
      * unfold Player_send. rewrite lookup_write_eq, Hp. simpl.
        eexists. split; [reflexivity|].
        intros name arg [H|[]]. discriminate H.
Qed.

Lemma voice_updates_ignored_witness :
  (Player.channel
     <$> heap (stateUpdate {| channel_id := Val "c1"; guild_id := "g1";
                              user_id := "bot"; session_id := "s2" |}
                 (Samples.world_of Samples.player_P 0)) !! O)
  = Some (Val "c1").
Proof.
  apply (proj2 (proj2 voice_updates_ignored)
           {| channel_id := Val "c1"; guild_id := "g1";
              user_id := "bot"; session_id := "s2" |}
           (Samples.world_of Samples.player_P 0) O Samples.player_P);
    reflexivity.
Defined.

End VoiceUpdates.

(** ** Where the design document and the code part *)

Section Departures.

Import Manager Props MoreProps Samples MoreSamples.

(** C1 as stated fails: a player whose channel is the empty string, which
    is not null, is dropped from the registry when its connection is lost;
    no task holds anchors for it and nothing is sent for it, a play command
    included, although Y comes up. *)
Lemma failover_blank_channel_dropped :
  Player.channel player_blank = Val ""
  /\ found (world_of player_blank 100000) [Y_up 101000]
     = Some (1%nat, 101000, socket_Y)
  /\ snd (failover socket_X [Y_up 101000] (world_of player_blank 100000)) = []
  /\ trace (fst (failover socket_X [Y_up 101000]
                   (world_of player_blank 100000))) = []
  /\ players (manager (fst (failover socket_X [Y_up 101000]
                             (world_of player_blank 100000)))) = [].
Proof. repeat split; vm_compute; reflexivity. Qed.

(** C2 as stated fails: n2 is configured before n3, but it is registered
    after it, by a second [init], since its first [connect()] threw; with
    both connected and of penalty 0, node selection returns n3. *)
Lemma ideal0_not_in_configuration_order :
  map Socket.data_id (nodes retried) = ["n1"; "n2"; "n3"]
  /\ map_values (sockets retried)
     = [{| Socket.id := "n1"; Socket.status := Socket.CONNECTED;
           Socket.penalties := 1 |};
        {| Socket.id := "n3"; Socket.status := Socket.CONNECTED;
           Socket.penalties := 0 |};
        {| Socket.id := "n2"; Socket.status := Socket.CONNECTED;
           Socket.penalties := 0 |}]
  /\ ideal0 retried
     = Some {| Socket.id := "n3"; Socket.status := Socket.CONNECTED;
               Socket.penalties := 0 |}.
Proof. repeat split; vm_compute; reflexivity. Qed.

End Departures.
